(** * The runtime-config environment of firebase-functions (src/env.ts)

    A shallow embedding of [AbstractEnv] and [RuntimeConfigEnv]: the
    readiness hub, the observer list, the self re-arming long-poll watch
    loop, the variable fetcher and the cached merged snapshot.

    The engine is event driven.  Its fields are the record [Env]; the
    JavaScript run time around it (promises handed out by [ready], requests
    in flight, calls made to the outside) is the record [Sys].  Every
    completion callback of the source is a function on [Sys]; the
    asynchronous environment is the step function [step] at the end of
    the definitions.

    Left out: console output, and what callers do in the callbacks they
    hand in (an observer or a [then] of a [ready()] promise is an opaque
    name; it does not call back into the engine while it runs). *)

From stdpp Require Import gmap strings list fin_maps.
From Stdlib Require Import ZArith OrderedTypeEx DecimalString.

Set Warnings "-register-all".

Local Open Scope Z_scope.

(** ** JavaScript values

    Configuration documents are JSON: scalars and nested maps (the
    configuration maps of the service hold no arrays).  An object is the
    map of its own enumerable properties; methods are not represented, so
    the credential is an object like any other.  Numbers are the
    integer-valued ones; nothing is ever computed with them, only their
    truthiness is tested.  Objects are values here: the in-place update of
    a nested object shared between two maps is a functional update. *)

Inductive value : Type :=
| VUndefined
| VNull
| VBool (b : bool)
| VNum (n : Z)
| VStr (s : string)
| VObj (props : gmap string value).

(** The result of running a callback: it returns or it throws. *)
Inductive completion (A : Type) : Type :=
| Normal (a : A)
| Thrown (e : value).
Arguments Normal {A} a.
Arguments Thrown {A} e.

Module Js.

(** ToBoolean. *)
Definition truthy (v : value) : bool :=
  match v with
  | VUndefined | VNull => false
  | VBool b => b
  | VNum n => negb (n =? 0)
  | VStr s => negb (String.eqb s "")
  | VObj _ => true
  end.

(** [a || b]. *)
Definition or (a b : value) : value := if truthy a then a else b.

(** [v === 'lit'] and [v === n]. *)
Definition is_str (v : value) (lit : string) : bool :=
  match v with VStr s => String.eqb s lit | _ => false end.

Definition is_num (v : value) (n : Z) : bool :=
  match v with VNum m => m =? n | _ => false end.

Definition nullish (v : value) : bool :=
  match v with VUndefined | VNull => true | _ => false end.

(** Template-literal conversion [`${v}`]. *)
Definition to_string (v : value) : string :=
  match v with
  | VUndefined => "undefined"
  | VNull => "null"
  | VBool true => "true"
  | VBool false => "false"
  | VNum n => NilZero.string_of_int (Z.to_int n)
  | VStr s => s
  | VObj _ => "[object Object]"
  end.

(** The indexed characters of a string, its own enumerable properties. *)
Fixpoint chars_from (i : nat) (s : string) : list (string * value) :=
  match s with
  | EmptyString => []
  | String c rest =>
      (NilZero.string_of_uint (Nat.to_uint i), VStr (String c EmptyString))
        :: chars_from (S i) rest
  end.

(** Own enumerable string-keyed properties. *)
Definition own_props (v : value) : gmap string value :=
  match v with
  | VObj m => m
  | VStr s => list_to_map (chars_from 0 s)
  | _ => ∅
  end.

(** [v[k]] on a value that is neither null nor undefined. *)
Definition get_prop (v : value) (k : string) : value :=
  default VUndefined (own_props v !! k).

(** [k in Object(v)] for a value that may be null or undefined, on the
    properties represented here. *)
Definition has (v : value) (k : string) : bool :=
  negb (nullish v) &&
  match own_props v !! k with Some _ => true | None => false end.

(** [new Error(message)]. *)
Definition Error (message : string) : value :=
  VObj {[ "message" := VStr message ]}.

(** typeof object (and not null), as lodash's [isObject]. *)
Definition isObject (v : value) : bool :=
  match v with VObj _ => true | _ => false end.

End Js.

(** ** The lodash functions the engine calls

    lodash is a dependency, not part of the repository; these follow its
    sources (version 4).  A path is the string the engine passes: the
    engine's two paths, ['firebase.credential'] and
    ['response.statusCode'], are dotted names without brackets, and so are
    the paths read here. *)
Module lodash.
Import Js Stdlib.Strings.Ascii.

(** [_.assign(object, ...sources)]: own enumerable properties of the
    sources are copied left to right, later sources overwrite earlier
    ones; null and undefined sources are skipped (the others that are
    falsy have no properties of their own). *)
Definition assign_one (object : gmap string value) (source : value)
  : gmap string value :=
  own_props source ∪ object.

Definition assign (object : gmap string value) (sources : list value)
  : value :=
  VObj (foldl assign_one object sources).

(** Writing one property. *)
Definition assignValue (object : value) (key : string) (v : value) : value :=
  match object with
  | VObj m => VObj (<[key := v]> m)
  | _ => object
  end.

(** [reIsDeepProp.test(path)] on a path without brackets: it has a dot. *)
Fixpoint reIsDeepProp (path : string) : bool :=
  match path with
  | EmptyString => false
  | String c rest => Ascii.eqb c "."%char || reIsDeepProp rest
  end.

(** [stringToPath(path)] on a path without brackets: the names between
    its dots, [key] being the name read so far. *)
Fixpoint stringToPath_from (key : string) (path : string) : list string :=
  match path with
  | EmptyString => [key]
  | String c rest =>
      if Ascii.eqb c "."%char
      then key :: stringToPath_from "" rest
      else stringToPath_from (String.append key (String c "")) rest
  end.

Definition stringToPath (path : string) : list string :=
  stringToPath_from "" path.

(** [isKey(path, object)]: a path is one property name, not a path, when
    it is not deep or when the object has a property of that very name
    ([object != null && path in Object(object)]). *)
Definition isKey (path : string) (object : value) : bool :=
  negb (reIsDeepProp path) || has object path.

(** [castPath(path, object)]. *)
Definition castPath (path : string) (object : value) : list string :=
  if isKey path object then [path] else stringToPath path.

(** The loop of [baseSet] over the keys of a path: missing or non-object
    portions of the path are replaced by fresh objects (by arrays before
    an index key; the names of the engine's path are no indices). *)
Fixpoint baseSet (object : value) (path : list string) (v : value) : value :=
  if negb (isObject object) then object
  else
    match path with
    | [] => object
    | [key] => assignValue object key v
    | key :: rest =>
        let objValue := get_prop object key in
        let nested := if isObject objValue then objValue else VObj ∅ in
        assignValue object key (baseSet nested rest v)
    end.

(** [_.set(object, path, v)]: the path is cast against the object first,
    so a property named by the whole path is written in place of the
    nested one. *)
Definition set (object : value) (path : string) (v : value) : value :=
  if negb (isObject object) then object
  else baseSet object (castPath path object) v.

(** The loop of [baseGet] over the keys of a path: undefined as soon as
    the walk meets null or undefined. *)
Fixpoint baseGet (object : value) (path : list string) : value :=
  match path with
  | [] => object
  | key :: rest =>
      if nullish object then VUndefined
      else baseGet (get_prop object key) rest
  end.

(** [_.get(object, path)]. *)
Definition get (object : value) (path : string) : value :=
  baseGet object (castPath path object).

End lodash.

(** ** Responses of the remote service

    The [text] field of a response envelope is a string holding a JSON
    document.  A string is represented by what [JSON.parse] makes of it: it
    is malformed (a missing field is, too: [JSON.parse(undefined)] throws),
    or it encodes a value. *)
Inductive json_text : Type :=
| Malformed
| Json (v : value).

Definition JSON_parse (t : json_text) : option value :=
  match t with
  | Malformed => None
  | Json v => Some v
  end.

(** [{state, text, updateTime}]; a variable document only has [text]. *)
Record response : Type := mkResponse {
  state : string;
  text : json_text;
  updateTime : string;
}.

(** How the promise returned by [request] settles. *)
Inductive reply : Type :=
| Response (r : response)
| Failure (err : value).

(** ** The engine instance and its run time *)

(** A promise returned by [ready()], named by its allocation index; the
    listener [{resolve, reject}] pushed for it is named the same.  An
    observer is an opaque callback. *)
Definition promise := nat.
Definition observer := nat.

Inductive outcome : Type :=
| Resolved
| Rejected (err : value).

(** [request.Options]. *)
Record Options : Type := mkOptions {
  method : string;
  url : string;
  body : option string;       (* [{newerThan}] *)
  json : bool;
  timeout : option Z;
}.

(** The reaction attached to a request in flight. *)
Inductive continuation : Type :=
| WatchThen       (* [watch]: [.then(response => .., err => ..).then(() => ..)] *)
| FetchVarThen.   (* [fetchVar]: [.then(response => ..)], then the reactions of [fetch] *)

(** Calls the engine makes to the outside. *)
Inductive effect : Type :=
| Http (o : Options)
| ListenerResolve (p : promise)
| ListenerReject (p : promise) (err : value)
| ObserverCall (cb : observer) (data : value).

(** The fields of [RuntimeConfigEnv] (with those of [AbstractEnv]).  A
    boolean field that is never initialised reads as [false]. *)
Record Env : Type := mkEnv {
  _ready : bool;
  _readyError : value;
  _readyListeners : list promise;
  _observers : list observer;
  credential : value;
  lastUpdated : string;
  projectId : value;
  version : value;
  _custom : value;
  _customFromMeta : value;
  _reserved : value;
  _merged : value;
  _watching : bool;
}.

Record Sys : Type := mkSys {
  this : Env;
  settled : gmap promise outcome;            (* promises no longer pending *)
  next_promise : promise;
  inflight : list (continuation * Options);  (* requests awaiting their reply *)
  effects : list effect;                     (* oldest first *)
}.

(** Field assignments. *)
Definition with_this (f : Env → Env) (s : Sys) : Sys :=
  mkSys (f (this s)) (settled s) (next_promise s) (inflight s) (effects s).

Definition set__ready (b : bool) (e : Env) : Env :=
  mkEnv b (_readyError e) (_readyListeners e) (_observers e) (credential e)
    (lastUpdated e) (projectId e) (version e) (_custom e) (_customFromMeta e)
    (_reserved e) (_merged e) (_watching e).

Definition set__readyListeners (l : list promise) (e : Env) : Env :=
  mkEnv (_ready e) (_readyError e) l (_observers e) (credential e)
    (lastUpdated e) (projectId e) (version e) (_custom e) (_customFromMeta e)
    (_reserved e) (_merged e) (_watching e).

Definition set__observers (l : list observer) (e : Env) : Env :=
  mkEnv (_ready e) (_readyError e) (_readyListeners e) l (credential e)
    (lastUpdated e) (projectId e) (version e) (_custom e) (_customFromMeta e)
    (_reserved e) (_merged e) (_watching e).

Definition set_lastUpdated (t : string) (e : Env) : Env :=
  mkEnv (_ready e) (_readyError e) (_readyListeners e) (_observers e)
    (credential e) t (projectId e) (version e) (_custom e) (_customFromMeta e)
    (_reserved e) (_merged e) (_watching e).

Definition set_version (v : value) (e : Env) : Env :=
  mkEnv (_ready e) (_readyError e) (_readyListeners e) (_observers e)
    (credential e) (lastUpdated e) (projectId e) v (_custom e)
    (_customFromMeta e) (_reserved e) (_merged e) (_watching e).

Definition set__custom (v : value) (e : Env) : Env :=
  mkEnv (_ready e) (_readyError e) (_readyListeners e) (_observers e)
    (credential e) (lastUpdated e) (projectId e) (version e) v
    (_customFromMeta e) (_reserved e) (_merged e) (_watching e).

Definition set__customFromMeta (v : value) (e : Env) : Env :=
  mkEnv (_ready e) (_readyError e) (_readyListeners e) (_observers e)
    (credential e) (lastUpdated e) (projectId e) (version e) (_custom e) v
    (_reserved e) (_merged e) (_watching e).

Definition set__reserved (v : value) (e : Env) : Env :=
  mkEnv (_ready e) (_readyError e) (_readyListeners e) (_observers e)
    (credential e) (lastUpdated e) (projectId e) (version e) (_custom e)
    (_customFromMeta e) v (_merged e) (_watching e).

Definition set__merged (v : value) (e : Env) : Env :=
  mkEnv (_ready e) (_readyError e) (_readyListeners e) (_observers e)
    (credential e) (lastUpdated e) (projectId e) (version e) (_custom e)
    (_customFromMeta e) (_reserved e) v (_watching e).

Definition set__watching (b : bool) (e : Env) : Env :=
  mkEnv (_ready e) (_readyError e) (_readyListeners e) (_observers e)
    (credential e) (lastUpdated e) (projectId e) (version e) (_custom e)
    (_customFromMeta e) (_reserved e) (_merged e) b.

(** Run-time primitives. *)
Definition emit (ev : effect) (s : Sys) : Sys :=
  mkSys (this s) (settled s) (next_promise s) (inflight s) (effects s ++ [ev]).

(** Settling a promise; a promise that is settled already keeps its
    outcome. *)
Definition settle (p : promise) (o : outcome) (s : Sys) : Sys :=
  match settled s !! p with
  | Some _ => s
  | None =>
      mkSys (this s) (<[p := o]> (settled s)) (next_promise s) (inflight s)
        (effects s)
  end.

(** [new Promise(..)]. *)
Definition new_promise (s : Sys) : promise * Sys :=
  (next_promise s,
   mkSys (this s) (settled s) (S (next_promise s)) (inflight s) (effects s)).

Definition send (k : continuation) (o : Options) (s : Sys) : Sys :=
  mkSys (this s) (settled s) (next_promise s) (inflight s ++ [(k, o)])
    (effects s ++ [Http o]).

Definition receive (i : nat) (s : Sys) : Sys :=
  mkSys (this s) (settled s) (next_promise s) (delete i (inflight s))
    (effects s).

(** ** AbstractEnv *)

(** [ready()].  The promise it returns is either settled on the spot
    ([Promise.reject(..)], [Promise.resolve()]) or pending with its
    listener queued. *)
Definition ready (s : Sys) : promise * Sys :=
  let '(p, s) := new_promise s in
  if _ready (this s) then
    if Js.truthy (_readyError (this s))
    then (p, settle p (Rejected (_readyError (this s))) s)
    else (p, settle p Resolved s)
  else
    (p, with_this (set__readyListeners (_readyListeners (this s) ++ [p])) s).

(** [observe(callback)]. *)
Definition observe (callback : observer) (s : Sys) : Sys :=
  with_this (set__observers (_observers (this s) ++ [callback])) s.

(** One turn of the loop of [_notifyReady]: shift a listener and settle
    it. *)
Definition notify_listener (err : value) (listener : promise) (s : Sys) : Sys :=
  if Js.truthy err
  then settle listener (Rejected err) (emit (ListenerReject listener err) s)
  else settle listener Resolved (emit (ListenerResolve listener) s).

Fixpoint drain_listeners (err : value) (queue : list promise) (s : Sys) : Sys :=
  match queue with
  | [] => s
  | listener :: rest =>
      let s := with_this (set__readyListeners rest) s in
      drain_listeners err rest (notify_listener err listener s)
  end.

(** [_notifyReady(err?)]. *)
Definition _notifyReady (err : value) (s : Sys) : Sys :=
  let s := with_this (set__ready true) s in
  drain_listeners err (_readyListeners (this s)) s.

(** [_notifyObservers(data)]. *)
Definition _notifyObservers (data : value) (s : Sys) : Sys :=
  foldl (λ s observer, emit (ObserverCall observer data) s) s
    (_observers (this s)).

(** ** RuntimeConfigEnv *)

Definition varname (e : Env) (name : value) : string :=
  "projects/" +:+ Js.to_string (projectId e)
    +:+ "/configs/firebase/variables/" +:+ Js.to_string name.

Definition varurl (e : Env) (name : value) : string :=
  "https://runtimeconfig.googleapis.com/v1beta1/" +:+ varname e name.

(** [request(options)]: the token is obtained and put in the Authorization
    header, the request goes out and the promise stays pending until the
    reply (a token that cannot be obtained is a [Failure] reply). *)
Definition request (k : continuation) (options : Options) (s : Sys) : Sys :=
  send k options s.

Definition watch_options (e : Env) : Options :=
  {| method := "POST";
     url := varurl e (VStr "meta") +:+ ":watch";
     body := Some (lastUpdated e);
     json := true;
     timeout := Some 65000 |}.

(** [watch()], up to the request; its reactions are [watch_then]. *)
Definition watch (s : Sys) : Sys :=
  if negb (_watching (this s)) then
    let s := with_this (set__watching true) s in
    request WatchThen (watch_options (this s)) s
  else s.

(** The setter [_meta].  Reading a property of null or undefined throws a
    TypeError. *)
Definition set__meta (meta : value) (s : Sys) : completion unit * Sys :=
  if Js.nullish meta then (Thrown (Js.Error "TypeError"), s)
  else
    let s := with_this (set_version
                          (Js.or (Js.get_prop meta "version") (VStr "v0"))) s in
    let s := with_this (set__reserved
                          (Js.or (Js.get_prop meta "reserved") (VObj ∅))) s in
    let s := with_this (set__merged VNull) s in
    if Js.truthy (Js.get_prop meta "latest")
    then
      (Normal (),
       with_this (set__customFromMeta (Js.get_prop meta "latest")) s)
    else (Normal (), s).

(** The first reaction of [fetch]. *)
Definition fetch_fulfilled (data : value) (s : Sys) : Sys :=
  let s := with_this (set__merged VNull) s in
  let s := with_this (set__custom (Js.or data (VObj ∅))) s in
  let s := _notifyReady VUndefined s in
  _notifyObservers data s.

(** The second reaction of [fetch]; [err.stack] throws on null and
    undefined. *)
Definition fetch_rejected (err : value) (s : Sys) : completion unit * Sys :=
  if Js.nullish err then (Thrown (Js.Error "TypeError"), s)
  else
    let s := with_this (set__merged VNull) s in
    let s := with_this (set__custom (VObj ∅)) s in
    (Normal (), _notifyReady err s).

(** A promise as [fetch] sees it: fulfilled already, or tied to a request
    in flight. *)
Inductive promised : Type :=
| Now (v : value)
| Later.

(** [fetchVar(name)], up to the request. *)
Definition fetchVar (name : value) (s : Sys) : promised * Sys :=
  if Js.is_str name "v0" then (Now (VObj ∅), s)
  else
    (Later,
     request FetchVarThen
       {| method := "GET"; url := varurl (this s) name; body := None;
          json := true; timeout := None |} s).

(** The reaction of [fetchVar]: [try { JSON.parse(response.text) } catch
    { return null }]. *)
Definition fetchVar_fulfilled (r : response) : completion value :=
  match JSON_parse (text r) with
  | Some v => Normal v
  | None => Normal VNull
  end.

(** [fetch()].  A promise that is fulfilled already runs the reaction
    before anything else is delivered to the engine; the value [fetch]
    returns is dropped by its only caller. *)
Definition fetch (s : Sys) : Sys :=
  let '(fetched, s) :=
    if Js.truthy (_customFromMeta (this s))
    then (Now (_customFromMeta (this s)), s)
    else fetchVar (version (this s)) s in
  match fetched with
  | Now data => fetch_fulfilled data s
  | Later => s
  end.

(** What follows the reply to a variable request. *)
Definition fetchVar_then (r : reply) (s : Sys) : Sys :=
  match r with
  | Response resp =>
      match fetchVar_fulfilled resp with
      | Normal data => fetch_fulfilled data s
      | Thrown err => snd (fetch_rejected err s)
      end
  | Failure err => snd (fetch_rejected err s)
  end.

(** The reactions of [watch] to a response. *)
Definition watch_fulfilled (r : response) (s : Sys) : completion unit * Sys :=
  if String.eqb (state r) "UPDATED" then
    match JSON_parse (text r) with
    | None => (Thrown (Js.Error "SyntaxError"), s)
    | Some meta =>
        match set__meta meta s with
        | (Thrown e, s) => (Thrown e, s)
        | (Normal _, s) =>
            let s := with_this (set_lastUpdated (updateTime r)) s in
            (Normal (), fetch s)
        end
    end
  else if String.eqb (state r) "DELETED" then
    let s := _notifyObservers (VObj ∅) s in
    let s := with_this (set__custom (VObj ∅)) s in
    let s := with_this (set_version VNull) s in
    let s := with_this (set_lastUpdated (updateTime r)) s in
    (Normal (), s)
  else (Normal (), s).

(** ... and to an error. *)
Definition watch_rejected (err : value) (s : Sys) : completion unit * Sys :=
  if Js.is_num (lodash.get err "response.statusCode") 502
  then (Normal (), s)
  else (Thrown err, s).

(** The last reaction, [() => { this._watching = false; this.watch(); }]. *)
Definition watch_rearm (s : Sys) : Sys :=
  watch (with_this (set__watching false) s).

(** The chain attached to the watch request.  The last [then] has no
    rejection handler: a rejected promise skips it. *)
Definition watch_then (r : reply) (s : Sys) : Sys :=
  let '(c, s) :=
    match r with
    | Response resp => watch_fulfilled resp s
    | Failure err => watch_rejected err s
    end in
  match c with
  | Normal _ => watch_rearm s
  | Thrown _ => s
  end.

(** [new RuntimeConfigEnv(credential, projectId)]. *)
Definition epoch : string := "1970-01-01T00:00:00.000Z".

Definition new_Env (credential projectId : value) : Env :=
  {| _ready := false; _readyError := VUndefined; _readyListeners := [];
     _observers := []; credential := credential; lastUpdated := epoch;
     projectId := projectId; version := VUndefined; _custom := VUndefined;
     _customFromMeta := VUndefined; _reserved := VUndefined;
     _merged := VUndefined; _watching := false |}.

Definition new_RuntimeConfigEnv (credential projectId : value) : Sys :=
  let s := {| this := new_Env credential projectId; settled := ∅;
              next_promise := 0%nat; inflight := []; effects := [] |} in
  if Js.truthy credential && Js.truthy projectId then watch s else s.

(** The merge of §4.4, as the getter computes it. *)
Definition merge (custom reserved credential : value) : value :=
  let merged := lodash.assign ∅ [custom; reserved] in
  if Js.truthy credential
  then lodash.set merged "firebase.credential" credential
  else merged.

Definition not_ready : value :=
  Js.Error "Firebase: cannot access env before it is ready".

(** [get data()]. *)
Definition data (s : Sys) : completion value * Sys :=
  if negb (_ready (this s)) then (Thrown not_ready, s)
  else if Js.truthy (_merged (this s)) then (Normal (_merged (this s)), s)
  else
    let merged :=
      merge (_custom (this s)) (_reserved (this s)) (credential (this s)) in
    (Normal merged, with_this (set__merged merged) s).

(** ** The environment of the engine

    What can happen to an instance: its three public members are used, or
    a request in flight receives its reply.  A reply runs the whole chain
    of reactions before the next event. *)
Inductive event : Type :=
| CallReady
| CallObserve (callback : observer)
| GetData
| Complete (i : nat) (r : reply).

Definition step (ev : event) (s : Sys) : option Sys :=
  match ev with
  | CallReady => Some (snd (ready s))
  | CallObserve callback => Some (observe callback s)
  | GetData => Some (snd (data s))
  | Complete i r =>
      match inflight s !! i with
      | None => None
      | Some (WatchThen, _) => Some (watch_then r (receive i s))
      | Some (FetchVarThen, _) => Some (fetchVar_then r (receive i s))
      end
  end.

Fixpoint run (evs : list event) (s : Sys) : option Sys :=
  match evs with
  | [] => Some s
  | ev :: rest =>
      match step ev s with
      | Some s' => run rest s'
      | None => None
      end
  end.

(** A state an instance can be in. *)
Definition reachable (s : Sys) : Prop :=
  ∃ credential projectId evs,
    run evs (new_RuntimeConfigEnv credential projectId) = Some s.

(** Timestamps of one format compare as their strings do. *)
Definition earlier (t1 t2 : string) : bool :=
  match String_as_OT.cmp t1 t2 with
  | Lt => true
  | _ => false
  end.

(** ** Vocabulary of the properties *)

(** What [_notifyReady(err)] does with one listener and what becomes of
    its promise. *)
Definition listener_effect (err : value) (p : promise) : effect :=
  if Js.truthy err then ListenerReject p err else ListenerResolve p.

Definition listener_outcome (err : value) : outcome :=
  if Js.truthy err then Rejected err else Resolved.

(** The observer invocations among the calls to the outside. *)
Definition observer_calls (l : list effect) : list (observer * value) :=
  omap (λ ev, match ev with
              | ObserverCall cb d => Some (cb, d)
              | _ => None
              end) l.

(** The requests among them. *)
Definition requests (l : list effect) : list Options :=
  omap (λ ev, match ev with Http o => Some o | _ => None end) l.

(** The loop has re-armed between [s] (the request of the finished cycle
    taken out) and [s']: the guard is set for a new long-poll request,
    which is the last thing sent and asks for what is newer than the
    [lastUpdated] of [s']. *)
Definition rearms (s s' : Sys) : Prop :=
  _watching (this s') = true ∧
  (∃ done,
     effects s' = effects s ++ done ++ [Http (watch_options (this s'))]) ∧
  (∃ started,
     inflight s'
     = inflight s ++ started ++ [(WatchThen, watch_options (this s'))]).

(** The outcomes of a watch cycle whose reactions return: a 502, a response
    other than UPDATED, an UPDATED response whose metadata parses to
    something that has properties. *)
Definition rearming (r : reply) : bool :=
  match r with
  | Response resp =>
      if String.eqb (state resp) "UPDATED" then
        match JSON_parse (text resp) with
        | Some meta => negb (Js.nullish meta)
        | None => false
        end
      else true
  | Failure err => Js.is_num (lodash.get err "response.statusCode") 502
  end.

(** The cache holds nothing, or the merge of the stored halves, where the
    custom half may be the one a DELETED event has emptied since. *)
Definition cache_ok (e : Env) : Prop :=
  Js.truthy (_merged e) = true →
  ∃ custom,
    _merged e = merge custom (_reserved e) (credential e) ∧
    (custom = _custom e ∨ _custom e = VObj ∅).

(** A watch response is timely when its [updateTime] is not earlier than
    the [lastUpdated] it was asked to be newer than. *)
Definition timely_event (ev : event) (s : Sys) : bool :=
  match ev with
  | Complete i (Response r) =>
      match inflight s !! i with
      | Some (WatchThen, _) =>
          negb (earlier (updateTime r) (lastUpdated (this s)))
      | _ => true
      end
  | _ => true
  end.

Fixpoint timely (evs : list event) (s : Sys) : bool :=
  match evs with
  | [] => true
  | ev :: rest =>
      timely_event ev s &&
      match step ev s with
      | Some s' => timely rest s'
      | None => true
      end
  end.

(** The long-poll requests among the requests in flight; there is to be one
    at most (§3). *)
Definition is_watch (x : continuation * Options) : bool :=
  match fst x with
  | WatchThen => true
  | FetchVarThen => false
  end.

Definition watches (l : list (continuation * Options)) : nat :=
  length (List.filter is_watch l).

Definition single_flight (s : Sys) : Prop :=
  (watches (inflight s) ≤ if _watching (this s) then 1 else 0)%nat.

(** The loop has stopped: the guard is set and no long-poll request is in
    flight to clear it. *)
Definition stopped (s : Sys) : Prop :=
  _watching (this s) = true ∧ watches (inflight s) = 0%nat.

(** The fields after the setter [_meta]. *)
Definition meta_applied (meta : value) (e : Env) : Env :=
  let e := set_version (Js.or (Js.get_prop meta "version") (VStr "v0")) e in
  let e := set__reserved (Js.or (Js.get_prop meta "reserved") (VObj ∅)) e in
  let e := set__merged VNull e in
  if Js.truthy (Js.get_prop meta "latest")
  then set__customFromMeta (Js.get_prop meta "latest") e
  else e.

(** An instance whose loop was never started: nothing was sent, nothing is
    in flight, and every promise handed out so far is pending in the
    queue. *)
Definition never_started (s : Sys) : Prop :=
  _watching (this s) = false ∧
  _ready (this s) = false ∧
  inflight s = [] ∧
  effects s = [] ∧
  settled s = ∅ ∧
  _readyListeners (this s) = seq 0 (next_promise s).

(** Promises are allocated in order: the queued listeners have been handed
    out, and a promise not yet handed out is not settled. *)
Definition promises_ok (s : Sys) : Prop :=
  (∀ p, p ∈ _readyListeners (this s) → (p < next_promise s)%nat) ∧
  (∀ p, (next_promise s ≤ p)%nat → settled s !! p = None).

(** The fields after the first reaction of [fetch]. *)
Definition reconciled (data : value) (e : Env) : Env :=
  set__readyListeners []
    (set__ready true
       (set__custom (Js.or data (VObj ∅)) (set__merged VNull e))).

(** The [updateTime] a watch cycle stores, if it stores one. *)
Definition stored_time (r : reply) : option string :=
  match r with
  | Response resp =>
      if rearming r
         && (String.eqb (state resp) "UPDATED"
             || String.eqb (state resp) "DELETED")
      then Some (updateTime resp)
      else None
  | Failure _ => None
  end.

(** The [lastUpdated] an event leaves behind. *)
Definition lastUpdated_after (ev : event) (s : Sys) : string :=
  match ev with
  | Complete i r =>
      match inflight s !! i with
      | Some (WatchThen, _) => default (lastUpdated (this s)) (stored_time r)
      | _ => lastUpdated (this s)
      end
  | _ => lastUpdated (this s)
  end.

(** ** Sample data *)
Module Sample.

Definition credential : value := VObj {[ "kind" := VStr "service-account" ]}.
Definition project : value := VStr "demo".

Definition T1 : string := "2017-02-01T00:00:00.000Z".
Definition T2 : string := "2017-03-01T00:00:00.000Z".

(** A transport error other than 502, and a 502. *)
Definition error_500 : value :=
  VObj {[ "message" := VStr "Internal Server Error";
          "response" := VObj {[ "statusCode" := VNum 500 ]} ]}.
Definition error_502 : value :=
  VObj {[ "message" := VStr "Bad Gateway";
          "response" := VObj {[ "statusCode" := VNum 502 ]} ]}.

(** Metadata of version v1 with the custom configuration inlined, and of
    versions v2 and v3 without it. *)
Definition latest1 : value := VObj {[ "a" := VNum 1 ]}.
Definition meta_v1_latest : value :=
  VObj {[ "version" := VStr "v1"; "latest" := latest1 ]}.
Definition meta_v2 : value := VObj {[ "version" := VStr "v2" ]}.
Definition meta_v3 : value :=
  VObj {[ "version" := VStr "v3"; "reserved" := VObj {[ "x" := VNum 1 ]} ]}.

Definition updated (meta : value) (t : string) : reply :=
  Response {| state := "UPDATED"; text := Json meta; updateTime := t |}.
Definition deleted (t : string) : reply :=
  Response {| state := "DELETED"; text := Malformed; updateTime := t |}.
Definition variable (t : json_text) : reply :=
  Response {| state := ""; text := t; updateTime := "" |}.

Definition engine : Sys := new_RuntimeConfigEnv credential project.

(** The scenario of §8: version v3 is announced without inlined
    configuration and the variable is fetched; here the custom document
    also has the reserved key [x]. *)
Definition custom_v3 : value := VObj {[ "y" := VNum 2; "x" := VNum 7 ]}.
Definition cycle_v3 : list event :=
  [Complete 0 (updated meta_v3 T1); Complete 0 (variable (Json custom_v3))].

(** Version v2 is announced without inlined configuration and its fetch
    fails. *)
Definition first_fetch_fails : list event :=
  [Complete 0 (updated meta_v2 T1); Complete 0 (Failure error_500)].


End Sample.

(** ** Vocabulary of the further properties *)

(** The promises whose listener was called, in the order of the calls. *)
Definition settlements (l : list effect) : list promise :=
  omap (λ ev, match ev with
              | ListenerResolve p | ListenerReject p _ => Some p
              | _ => None
              end) l.

(** The GET [fetchVar] sends for a variable. *)
Definition variable_options (e : Env) (name : value) : Options :=
  {| method := "GET"; url := varurl e name; body := None;
     json := true; timeout := None |}.

(** The two requests the engine makes: the long-poll for what is newer than
    some timestamp, and the GET of a variable other than v0. *)
Definition request_ok (e : Env) (o : Options) : Prop :=
  (∃ t, o = watch_options (set_lastUpdated t e)) ∨
  (∃ name, Js.is_str name "v0" = false ∧ o = variable_options e name).

(** A stretch of execution that settles no promise and leaves readiness,
    the listener queue and the project as they are. *)
Definition quiet (a b : Sys) : Prop :=
  settled b = settled a ∧
  next_promise b = next_promise a ∧
  _readyListeners (this b) = _readyListeners (this a) ∧
  _ready (this b) = _ready (this a) ∧
  projectId (this b) = projectId (this a) ∧
  credential (this b) = credential (this a) ∧
  ∃ d, effects b = effects a ++ d ∧
       settlements d = [] ∧
       Forall (request_ok (this a)) (requests d).

(** A watch cycle that brings no news: a 502, or a response whose state is
    neither UPDATED nor DELETED. *)
Definition benign (r : reply) : bool :=
  match r with
  | Response resp =>
      negb (String.eqb (state resp) "UPDATED")
      && negb (String.eqb (state resp) "DELETED")
  | Failure err => Js.is_num (lodash.get err "response.statusCode") 502
  end.

(** Every promise handed out is settled or waits in the queue. *)
Definition callers_accounted (s : Sys) : Prop :=
  ∀ p, (p < next_promise s)%nat →
       is_Some (settled s !! p) ∨ p ∈ _readyListeners (this s).

(** No listener was called twice, and none that was called is queued. *)
Definition called_once (s : Sys) : Prop :=
  NoDup (settlements (effects s) ++ _readyListeners (this s)) ∧
  ∀ p, p ∈ settlements (effects s) ++ _readyListeners (this s) →
       (p < next_promise s)%nat.

(** The long-poll request in flight asks for what is newer than the stored
    [lastUpdated]. *)
Definition watch_current (s : Sys) : Prop :=
  ∀ o, (WatchThen, o) ∈ inflight s → o = watch_options (this s).

(** * Properties *)

(** ** Settling listeners and calling observers *)

Lemma notify_listener_eq err p s :
  notify_listener err p s
  = settle p (listener_outcome err) (emit (listener_effect err p) s).
Proof.
  unfold notify_listener, listener_outcome, listener_effect.
  by destruct (Js.truthy err).
Qed.

Lemma settle_this p o s : this (settle p o s) = this s.
Proof. unfold settle. by destruct (settled s !! p). Qed.

Lemma settle_effects p o s : effects (settle p o s) = effects s.
Proof. unfold settle. by destruct (settled s !! p). Qed.

Lemma settle_inflight p o s : inflight (settle p o s) = inflight s.
Proof. unfold settle. by destruct (settled s !! p). Qed.

Lemma settle_next_promise p o s : next_promise (settle p o s) = next_promise s.
Proof. unfold settle. by destruct (settled s !! p). Qed.

Lemma settle_pending p o s :
  settled s !! p = None → settled (settle p o s) !! p = Some o.
Proof. intros H. unfold settle. rewrite H. simpl. apply lookup_insert_eq. Qed.

Lemma settle_kept p o q o' s :
  settled s !! q = Some o' → settled (settle p o s) !! q = Some o'.
Proof.
  intros H. unfold settle. destruct (settled s !! p) eqn:E; [done|].
  simpl. rewrite lookup_insert_ne; [done|]. intros ->. congruence.
Qed.

Lemma settle_other p o q s :
  p ≠ q → settled (settle p o s) !! q = settled s !! q.
Proof.
  intros H. unfold settle. destruct (settled s !! p); [done|].
  simpl. by rewrite lookup_insert_ne.
Qed.

Lemma drain_listeners_this err queue s :
  this (drain_listeners err queue s)
  = match queue with
    | [] => this s
    | _ => set__readyListeners [] (this s)
    end.
Proof.
  revert s. induction queue as [|p rest IH]; intros s; [done|].
  simpl. rewrite IH, notify_listener_eq, settle_this. simpl.
  by destruct rest.
Qed.

Lemma drain_listeners_effects err queue s :
  effects (drain_listeners err queue s)
  = effects s ++ map (listener_effect err) queue.
Proof.
  revert s. induction queue as [|p rest IH]; intros s; simpl.
  - by rewrite app_nil_r.
  - rewrite IH, notify_listener_eq, settle_effects. simpl.
    by rewrite <- app_assoc.
Qed.

Lemma drain_listeners_inflight err queue s :
  inflight (drain_listeners err queue s) = inflight s.
Proof.
  revert s. induction queue as [|p rest IH]; intros s; simpl; [done|].
  by rewrite IH, notify_listener_eq, settle_inflight.
Qed.

Lemma drain_listeners_next_promise err queue s :
  next_promise (drain_listeners err queue s) = next_promise s.
Proof.
  revert s. induction queue as [|p rest IH]; intros s; simpl; [done|].
  by rewrite IH, notify_listener_eq, settle_next_promise.
Qed.

Lemma drain_listeners_kept err queue q o s :
  settled s !! q = Some o → settled (drain_listeners err queue s) !! q = Some o.
Proof.
  revert s. induction queue as [|p rest IH]; intros s H; simpl; [done|].
  apply IH. rewrite notify_listener_eq. by apply settle_kept.
Qed.

Lemma drain_listeners_settles err queue p s :
  p ∈ queue → settled s !! p = None →
  settled (drain_listeners err queue s) !! p = Some (listener_outcome err).
Proof.
  revert s. induction queue as [|q rest IH]; intros s Hin Hp.
  - by apply elem_of_nil in Hin.
  - simpl. rewrite notify_listener_eq.
    destruct (decide (p = q)) as [->|Hne].
    + apply drain_listeners_kept. by apply settle_pending.
    + apply IH.
      * apply elem_of_cons in Hin as [?|?]; [done|done].
      * rewrite settle_other; [done|congruence].
Qed.

Lemma drain_listeners_others err queue p s :
  p ∉ queue → settled (drain_listeners err queue s) !! p = settled s !! p.
Proof.
  revert s. induction queue as [|q rest IH]; intros s Hin; simpl; [done|].
  apply not_elem_of_cons in Hin as [Hne Hin].
  rewrite IH by done. rewrite notify_listener_eq.
  rewrite settle_other; [done|congruence].
Qed.

Lemma notifyObservers_fold data obs s :
  foldl (λ s observer, emit (ObserverCall observer data) s) s obs
  = mkSys (this s) (settled s) (next_promise s) (inflight s)
      (effects s ++ map (λ cb, ObserverCall cb data) obs).
Proof.
  revert s. induction obs as [|cb rest IH]; intros s; simpl.
  - rewrite app_nil_r. by destruct s.
  - rewrite IH. simpl. by rewrite <- app_assoc.
Qed.

Lemma notifyObservers_eq data s :
  _notifyObservers data s
  = mkSys (this s) (settled s) (next_promise s) (inflight s)
      (effects s ++ map (λ cb, ObserverCall cb data) (_observers (this s))).
Proof. apply notifyObservers_fold. Qed.

Lemma notifyReady_this err s :
  this (_notifyReady err s) = set__readyListeners [] (set__ready true (this s)).
Proof.
  unfold _notifyReady. rewrite drain_listeners_this. simpl.
  destruct (_readyListeners (this s)) eqn:E; [|done].
  unfold set__readyListeners, set__ready. simpl. by rewrite E.
Qed.

Lemma notifyReady_effects err s :
  effects (_notifyReady err s)
  = effects s ++ map (listener_effect err) (_readyListeners (this s)).
Proof. unfold _notifyReady. by rewrite drain_listeners_effects. Qed.

Lemma notifyReady_inflight err s : inflight (_notifyReady err s) = inflight s.
Proof. unfold _notifyReady. by rewrite drain_listeners_inflight. Qed.

Lemma notifyReady_next_promise err s :
  next_promise (_notifyReady err s) = next_promise s.
Proof. unfold _notifyReady. by rewrite drain_listeners_next_promise. Qed.

Lemma notifyReady_settles err p s :
  p ∈ _readyListeners (this s) → settled s !! p = None →
  settled (_notifyReady err s) !! p = Some (listener_outcome err).
Proof. intros. unfold _notifyReady. by apply drain_listeners_settles. Qed.

Lemma notifyReady_kept err p o s :
  settled s !! p = Some o → settled (_notifyReady err s) !! p = Some o.
Proof. intros. unfold _notifyReady. by apply drain_listeners_kept. Qed.

Lemma notifyReady_others err p s :
  p ∉ _readyListeners (this s) →
  settled (_notifyReady err s) !! p = settled s !! p.
Proof. intros. unfold _notifyReady. by rewrite drain_listeners_others. Qed.

(** ** The reconciliation step *)

Lemma fetch_fulfilled_this data s :
  this (fetch_fulfilled data s)
  = set__readyListeners []
      (set__ready true
         (set__custom (Js.or data (VObj ∅)) (set__merged VNull (this s)))).
Proof.
  unfold fetch_fulfilled. rewrite notifyObservers_eq. simpl.
  by rewrite notifyReady_this.
Qed.

Lemma fetch_fulfilled_effects data s :
  effects (fetch_fulfilled data s)
  = effects s ++ map ListenerResolve (_readyListeners (this s))
      ++ map (λ cb, ObserverCall cb data) (_observers (this s)).
Proof.
  unfold fetch_fulfilled. rewrite notifyObservers_eq. simpl.
  rewrite notifyReady_effects, notifyReady_this. simpl.
  by rewrite <- app_assoc.
Qed.

Lemma fetch_fulfilled_inflight data s :
  inflight (fetch_fulfilled data s) = inflight s.
Proof.
  unfold fetch_fulfilled. rewrite notifyObservers_eq. simpl.
  by rewrite notifyReady_inflight.
Qed.

Lemma fetch_fulfilled_next_promise data s :
  next_promise (fetch_fulfilled data s) = next_promise s.
Proof.
  unfold fetch_fulfilled. rewrite notifyObservers_eq. simpl.
  by rewrite notifyReady_next_promise.
Qed.

Lemma fetch_fulfilled_settles data p s :
  p ∈ _readyListeners (this s) → settled s !! p = None →
  settled (fetch_fulfilled data s) !! p = Some Resolved.
Proof.
  intros Hin Hp. unfold fetch_fulfilled. rewrite notifyObservers_eq. simpl.
  by apply (notifyReady_settles VUndefined).
Qed.

Lemma fetch_fulfilled_kept data p o s :
  settled s !! p = Some o → settled (fetch_fulfilled data s) !! p = Some o.
Proof.
  intros Hp. unfold fetch_fulfilled. rewrite notifyObservers_eq. simpl.
  by apply notifyReady_kept.
Qed.

Lemma fetch_rejected_normal err s :
  Js.nullish err = false →
  fetch_rejected err s
  = (Normal (),
     _notifyReady err
       (with_this (set__custom (VObj ∅)) (with_this (set__merged VNull) s))).
Proof. intros H. unfold fetch_rejected. by rewrite H. Qed.

Lemma truthy_not_nullish v : Js.truthy v = true → Js.nullish v = false.
Proof. by destruct v. Qed.

(** C5 (amended).  The reconciliation step that follows a fetch which
    yielded a document sets [custom] to the document, invalidates the cached
    snapshot, establishes readiness, resolves every queued [ready()] caller
    once and empties the queue, then calls every registered observer, in
    registration order, with the new [custom] value.  The step that follows
    a failed fetch sets [custom] to the empty map, invalidates the cache,
    establishes readiness and rejects every queued caller once with the
    error; it calls no observer. *)
Theorem reconciliation_step (s : Sys) (data err : value) :
  Js.truthy data = true →
  Js.truthy err = true →
  let ok := fetch_fulfilled data s in
  let ko := snd (fetch_rejected err s) in
  (_custom (this ok) = data ∧
   _merged (this ok) = VNull ∧
   _ready (this ok) = true ∧
   _readyListeners (this ok) = [] ∧
   effects ok
   = effects s ++ map ListenerResolve (_readyListeners (this s))
       ++ map (λ cb, ObserverCall cb (_custom (this ok))) (_observers (this s)) ∧
   (∀ p, p ∈ _readyListeners (this s) → settled s !! p = None →
         settled ok !! p = Some Resolved)) ∧
  (fst (fetch_rejected err s) = Normal () ∧
   _custom (this ko) = VObj ∅ ∧
   _merged (this ko) = VNull ∧
   _ready (this ko) = true ∧
   _readyListeners (this ko) = [] ∧
   effects ko
   = effects s ++ map (λ p, ListenerReject p err) (_readyListeners (this s)) ∧
   observer_calls (effects ko) = observer_calls (effects s) ∧
   (∀ p, p ∈ _readyListeners (this s) → settled s !! p = None →
         settled ko !! p = Some (Rejected err))).
Proof.
  intros Hdata Herr ok ko. split.
  - subst ok. rewrite fetch_fulfilled_this, fetch_fulfilled_effects. simpl.
    unfold Js.or. rewrite Hdata. repeat split; try done.
    intros p Hin Hp. by apply fetch_fulfilled_settles.
  - subst ko. rewrite fetch_rejected_normal by (by apply truthy_not_nullish).
    simpl. rewrite notifyReady_this, notifyReady_effects. simpl.
    assert (Heff : map (listener_effect err) (_readyListeners (this s))
                   = map (λ p, ListenerReject p err) (_readyListeners (this s))).
    { apply map_ext. intros p. unfold listener_effect. by rewrite Herr. }
    rewrite Heff. repeat split; try done.
    + unfold observer_calls. rewrite omap_app.
      assert (Hnone : ∀ l : list promise,
                 omap (λ ev, match ev with
                             | ObserverCall cb d => Some (cb, d)
                             | _ => None
                             end) (map (λ p, ListenerReject p err) l) = []).
      { induction l as [|p l IH]; [done|]. exact IH. }
      by rewrite Hnone, app_nil_r.
    + intros p Hin Hp.
      pose proof (notifyReady_settles err p
                    (with_this (set__custom (VObj ∅))
                       (with_this (set__merged VNull) s)) Hin Hp) as H.
      unfold listener_outcome in H. by rewrite Herr in H.
Qed.

(** At a document and an error of the samples, with two callers queued and
    one observer registered. *)
Lemma reconciliation_step_witness :
  let s := snd (ready (snd (ready (observe 7%nat Sample.engine)))) in
  _custom (this (fetch_fulfilled Sample.latest1 s)) = Sample.latest1 ∧
  effects (snd (fetch_rejected Sample.error_500 s))
  = effects s ++ [ListenerReject 0%nat Sample.error_500;
                  ListenerReject 1%nat Sample.error_500].
Proof.
  intros s.
  destruct (reconciliation_step s Sample.latest1 Sample.error_500)
    as [[Hc _] [_ [_ [_ [_ [_ [He _]]]]]]]; [reflexivity|reflexivity|].
  split; [exact Hc|exact He].
Defined.

(** ** The watch loop *)

Lemma watch_rearm_eq mid :
  watch_rearm mid
  = mkSys (set__watching true (this mid)) (settled mid) (next_promise mid)
      (inflight mid ++ [(WatchThen, watch_options (this mid))])
      (effects mid ++ [Http (watch_options (this mid))]).
Proof. reflexivity. Qed.

Lemma step_watch_reply s i o r :
  inflight s !! i = Some (WatchThen, o) →
  step (Complete i r) s = Some (watch_then r (receive i s)).
Proof. intros H. simpl. by rewrite H. Qed.

Lemma step_variable_reply s i o r :
  inflight s !! i = Some (FetchVarThen, o) →
  step (Complete i r) s = Some (fetchVar_then r (receive i s)).
Proof. intros H. simpl. by rewrite H. Qed.

Lemma watch_then_deleted r s :
  state r = "DELETED" →
  watch_then (Response r) s
  = watch_rearm
      (with_this (set_lastUpdated (updateTime r))
         (with_this (set_version VNull)
            (with_this (set__custom (VObj ∅)) (_notifyObservers (VObj ∅) s)))).
Proof. intros H. unfold watch_then, watch_fulfilled. by rewrite H. Qed.

(** C6.  A DELETED watch response empties the stored custom configuration,
    sets the version to null, stores the response's [updateTime] as
    [lastUpdated] and calls every registered observer with an empty map.
    The only request of the cycle is the next long-poll: no variable is
    fetched, and the fields the reconciliation step writes (readiness, the
    listener queue, the settled promises, the cached snapshot) are left as
    they were. *)
Theorem deleted_clears_custom (s : Sys) (i : nat) (o : Options) (r : response) :
  inflight s !! i = Some (WatchThen, o) →
  state r = "DELETED" →
  ∃ s',
    step (Complete i (Response r)) s = Some s' ∧
    _custom (this s') = VObj ∅ ∧
    version (this s') = VNull ∧
    lastUpdated (this s') = updateTime r ∧
    effects s'
    = effects s ++ map (λ cb, ObserverCall cb (VObj ∅)) (_observers (this s))
        ++ [Http (watch_options (this s'))] ∧
    inflight s'
    = delete i (inflight s) ++ [(WatchThen, watch_options (this s'))] ∧
    method (watch_options (this s')) = "POST" ∧
    _ready (this s') = _ready (this s) ∧
    _readyListeners (this s') = _readyListeners (this s) ∧
    settled s' = settled s ∧
    _merged (this s') = _merged (this s).
Proof.
  intros Hi Hstate. eexists. split.
  { by apply (step_watch_reply s i o). }
  rewrite watch_then_deleted, watch_rearm_eq, notifyObservers_eq by done.
  simpl. rewrite <- app_assoc. repeat split; reflexivity.
Qed.

Lemma deleted_clears_custom_witness :
  ∃ s',
    step (Complete 0 (Sample.deleted Sample.T1)) (observe 7%nat Sample.engine)
    = Some s' ∧
    _custom (this s') = VObj ∅ ∧
    version (this s') = VNull ∧
    lastUpdated (this s') = Sample.T1 ∧
    observer_calls (effects s') = [(7%nat, VObj ∅)] ∧
    length (inflight s') = 1%nat.
Proof.
  destruct (deleted_clears_custom (observe 7%nat Sample.engine) 0
              (watch_options (this Sample.engine))
              {| state := "DELETED"; text := Malformed;
                 updateTime := Sample.T1 |})
    as (s' & Hstep & Hc & Hv & Ht & He & Hf & _); [reflexivity|reflexivity|].
  exists s'. split; [exact Hstep|].
  split; [exact Hc|]. split; [exact Hv|]. split; [exact Ht|].
  split; [rewrite He; reflexivity|rewrite Hf; reflexivity].
Defined.

(** C7.  When the [text] of a variable-fetch response does not parse, the
    fetch yields null instead of raising; the reconciliation that follows
    stores an empty [custom], establishes readiness by resolving (not
    rejecting) the queued callers, and leaves the watch loop as it was: the
    guard and the requests in flight are untouched, so the reply to the
    long-poll request is still accepted. *)
Theorem malformed_variable_gives_empty_custom
    (s : Sys) (i : nat) (o : Options) (r : response) :
  inflight s !! i = Some (FetchVarThen, o) →
  JSON_parse (text r) = None →
  fetchVar_fulfilled r = Normal VNull ∧
  ∃ s',
    step (Complete i (Response r)) s = Some s' ∧
    _custom (this s') = VObj ∅ ∧
    _ready (this s') = true ∧
    _readyListeners (this s') = [] ∧
    effects s'
    = effects s ++ map ListenerResolve (_readyListeners (this s))
        ++ map (λ cb, ObserverCall cb VNull) (_observers (this s)) ∧
    (∀ p, p ∈ _readyListeners (this s) → settled s !! p = None →
          settled s' !! p = Some Resolved) ∧
    _watching (this s') = _watching (this s) ∧
    inflight s' = delete i (inflight s) ∧
    (∀ j o' r', inflight s' !! j = Some (WatchThen, o') →
                is_Some (step (Complete j r') s')).
Proof.
  intros Hi Hparse.
  assert (Hnull : fetchVar_fulfilled r = Normal VNull).
  { unfold fetchVar_fulfilled. by rewrite Hparse. }
  split; [exact Hnull|].
  eexists. split.
  { by apply (step_variable_reply s i o). }
  unfold fetchVar_then. rewrite Hnull.
  rewrite fetch_fulfilled_this, fetch_fulfilled_effects,
    fetch_fulfilled_inflight. simpl.
  repeat split; try reflexivity.
  - intros p Hin Hp. by apply fetch_fulfilled_settles.
  - intros j o' r' Hj. eexists. apply (step_watch_reply _ j o').
    rewrite fetch_fulfilled_inflight. exact Hj.
Qed.

Lemma malformed_variable_gives_empty_custom_witness :
  ∃ s0 s',
    run [CallReady; Complete 0 (Sample.updated Sample.meta_v2 Sample.T1)]
      Sample.engine = Some s0 ∧
    step (Complete 0 (Sample.variable Malformed)) s0 = Some s' ∧
    _custom (this s') = VObj ∅ ∧
    _ready (this s') = true ∧
    settled s' !! 0%nat = Some Resolved.
Proof.
  eexists. 
  destruct (malformed_variable_gives_empty_custom
              (default Sample.engine
                 (run [CallReady;
                       Complete 0 (Sample.updated Sample.meta_v2 Sample.T1)]
                    Sample.engine))
              0
              {| method := "GET";
                 url := "https://runtimeconfig.googleapis.com/v1beta1/projects/demo/configs/firebase/variables/v2";
                 body := None; json := true; timeout := None |}
              {| state := ""; text := Malformed; updateTime := "" |})
    as (_ & s' & Hstep & Hc & Hr & _ & _ & Hs & _); [reflexivity|reflexivity|].
  exists s'. split; [reflexivity|].
  split; [exact Hstep|]. split; [exact Hc|]. split; [exact Hr|].
  apply Hs; [|reflexivity]. vm_compute. apply list_elem_of_here.
Defined.

(** ** What each member does to the fields *)

Lemma ready_this s :
  this (snd (ready s))
  = if _ready (this s) then this s
    else set__readyListeners (_readyListeners (this s) ++ [next_promise s])
           (this s).
Proof.
  unfold ready, new_promise. simpl. destruct (_ready (this s)); [|done].
  destruct (Js.truthy (_readyError (this s))); simpl; by rewrite settle_this.
Qed.

Lemma ready_inflight s : inflight (snd (ready s)) = inflight s.
Proof.
  unfold ready, new_promise. simpl. destruct (_ready (this s)); [|done].
  destruct (Js.truthy (_readyError (this s))); simpl; by rewrite settle_inflight.
Qed.

Lemma ready_effects s : effects (snd (ready s)) = effects s.
Proof.
  unfold ready, new_promise. simpl. destruct (_ready (this s)); [|done].
  destruct (Js.truthy (_readyError (this s))); simpl; by rewrite settle_effects.
Qed.

Lemma data_this s :
  this (snd (data s))
  = if _ready (this s) && negb (Js.truthy (_merged (this s)))
    then set__merged
           (merge (_custom (this s)) (_reserved (this s)) (credential (this s)))
           (this s)
    else this s.
Proof.
  unfold data. destruct (_ready (this s)); [|done]. simpl.
  by destruct (Js.truthy (_merged (this s))).
Qed.

Lemma data_inflight s : inflight (snd (data s)) = inflight s.
Proof.
  unfold data. destruct (_ready (this s)); [|done]. simpl.
  by destruct (Js.truthy (_merged (this s))).
Qed.

Lemma data_effects s : effects (snd (data s)) = effects s.
Proof.
  unfold data. destruct (_ready (this s)); [|done]. simpl.
  by destruct (Js.truthy (_merged (this s))).
Qed.

Lemma data_settled s : settled (snd (data s)) = settled s.
Proof.
  unfold data. destruct (_ready (this s)); [|done]. simpl.
  by destruct (Js.truthy (_merged (this s))).
Qed.

Lemma fetch_rejected_this err s :
  this (snd (fetch_rejected err s))
  = if Js.nullish err then this s
    else set__readyListeners []
           (set__ready true (set__custom (VObj ∅) (set__merged VNull (this s)))).
Proof.
  unfold fetch_rejected. destruct (Js.nullish err); [done|].
  simpl. by rewrite notifyReady_this.
Qed.

Lemma fetch_rejected_inflight err s :
  inflight (snd (fetch_rejected err s)) = inflight s.
Proof.
  unfold fetch_rejected. destruct (Js.nullish err); [done|].
  simpl. by rewrite notifyReady_inflight.
Qed.

(** The three ways [fetch] can go. *)
Lemma fetch_cases s :
  (Js.truthy (_customFromMeta (this s)) = true ∧
   fetch s = fetch_fulfilled (_customFromMeta (this s)) s) ∨
  (Js.truthy (_customFromMeta (this s)) = false ∧
   Js.is_str (version (this s)) "v0" = true ∧
   fetch s = fetch_fulfilled (VObj ∅) s) ∨
  (Js.truthy (_customFromMeta (this s)) = false ∧
   Js.is_str (version (this s)) "v0" = false ∧
   ∃ o, method o = "GET" ∧ url o = varurl (this s) (version (this s)) ∧
        fetch s = mkSys (this s) (settled s) (next_promise s)
                    (inflight s ++ [(FetchVarThen, o)]) (effects s ++ [Http o])).
Proof.
  unfold fetch, fetchVar.
  destruct (Js.truthy (_customFromMeta (this s))); [by left|].
  destruct (Js.is_str (version (this s)) "v0"); [right; by left|].
  right; right. repeat split. eexists. by repeat split.
Qed.

Lemma set__meta_eq meta s :
  Js.nullish meta = false →
  set__meta meta s = (Normal (), with_this (meta_applied meta) s).
Proof.
  intros H. unfold set__meta, meta_applied. rewrite H.
  by destruct (Js.truthy (Js.get_prop meta "latest")).
Qed.

(** The reactions of [watch] either throw and leave the engine as it was,
    or return having sent at most a variable request. *)
Lemma watch_fulfilled_thrown r s :
  rearming (Response r) = false →
  ∃ e, watch_fulfilled r s = (Thrown e, s).
Proof.
  unfold rearming, watch_fulfilled.
  destruct (String.eqb (state r) "UPDATED"); [|done].
  destruct (JSON_parse (text r)) as [meta|]; [|by eexists].
  intros Hnull%negb_false_iff. unfold set__meta. rewrite Hnull. by eexists.
Qed.

Lemma watch_fulfilled_updated r meta s :
  state r = "UPDATED" → JSON_parse (text r) = Some meta →
  Js.nullish meta = false →
  watch_fulfilled r s
  = (Normal (),
     fetch (with_this (set_lastUpdated (updateTime r))
              (with_this (meta_applied meta) s))).
Proof.
  intros Hs Hp Hn. unfold watch_fulfilled. rewrite Hs, Hp. simpl.
  by rewrite set__meta_eq.
Qed.

Lemma watch_then_cases r s :
  (rearming r = true ∧
   ∃ mid, watch_then r s = watch_rearm mid ∧
     (∃ done, effects mid = effects s ++ done) ∧
     (∃ started, inflight mid = inflight s ++ started ∧ watches started = 0%nat)) ∨
  (rearming r = false ∧ watch_then r s = s).
Proof.
  destruct r as [r|err].
  - destruct (rearming (Response r)) eqn:Hr.
    + left. split; [done|]. unfold rearming in Hr. unfold watch_then.
      destruct (String.eqb (state r) "UPDATED") eqn:Hu.
      * apply String.eqb_eq in Hu.
        destruct (JSON_parse (text r)) as [meta|] eqn:Hp; [|done].
        apply negb_true_iff in Hr.
        rewrite (watch_fulfilled_updated r meta) by done.
        eexists. split; [reflexivity|].
        destruct (fetch_cases
                    (with_this (set_lastUpdated (updateTime r))
                       (with_this (meta_applied meta) s)))
          as [[_ ->]|[(_ & _ & ->)|(_ & _ & o & _ & _ & ->)]].
        -- rewrite fetch_fulfilled_effects, fetch_fulfilled_inflight. simpl.
           split; [by eexists|]. exists []. by rewrite app_nil_r.
        -- rewrite fetch_fulfilled_effects, fetch_fulfilled_inflight. simpl.
           split; [by eexists|]. exists []. by rewrite app_nil_r.
        -- simpl. split; [by eexists|]. by eexists.
      * unfold watch_fulfilled. rewrite Hu.
        destruct (String.eqb (state r) "DELETED").
        -- eexists. split; [reflexivity|]. rewrite notifyObservers_eq. simpl.
           split; [by eexists|]. exists []. by rewrite app_nil_r.
        -- eexists. split; [reflexivity|].
           split; exists []; by rewrite app_nil_r.
    + right. split; [done|]. unfold watch_then.
      by destruct (watch_fulfilled_thrown r s Hr) as [e ->].
  - unfold rearming, watch_then, watch_rejected.
    destruct (Js.is_num (lodash.get err "response.statusCode") 502).
    + left. split; [done|]. eexists. split; [reflexivity|].
      split; exists []; by rewrite app_nil_r.
    + by right.
Qed.

(** ** Requests in flight *)

Lemma watches_app l1 l2 : watches (l1 ++ l2) = (watches l1 + watches l2)%nat.
Proof. unfold watches. by rewrite List.filter_app, length_app. Qed.

Lemma watches_delete_watch l i o :
  l !! i = Some (WatchThen, o) → watches l = S (watches (delete i l)).
Proof.
  revert i. induction l as [|x l IH]; intros i Hi; [done|].
  destruct i as [|i]; simpl in Hi.
  - by injection Hi as ->.
  - specialize (IH i Hi). unfold watches in *. simpl.
    destruct (is_watch x); simpl; by rewrite IH.
Qed.

Lemma watches_delete_variable l i o :
  l !! i = Some (FetchVarThen, o) → watches (delete i l) = watches l.
Proof.
  revert i. induction l as [|x l IH]; intros i Hi; [done|].
  destruct i as [|i]; simpl in Hi.
  - by injection Hi as ->.
  - specialize (IH i Hi). unfold watches in *. simpl.
    destruct (is_watch x); simpl; by rewrite IH.
Qed.

Lemma fetchVar_then_this_watching r s :
  _watching (this (fetchVar_then r s)) = _watching (this s).
Proof.
  unfold fetchVar_then. destruct r as [r|err].
  - destruct (fetchVar_fulfilled r); [by rewrite fetch_fulfilled_this|].
    rewrite fetch_rejected_this. by destruct (Js.nullish e).
  - rewrite fetch_rejected_this. by destruct (Js.nullish err).
Qed.

Lemma fetchVar_then_inflight r s :
  inflight (fetchVar_then r s) = inflight s.
Proof.
  unfold fetchVar_then. destruct r as [r|err].
  - destruct (fetchVar_fulfilled r); [by rewrite fetch_fulfilled_inflight|].
    by rewrite fetch_rejected_inflight.
  - by rewrite fetch_rejected_inflight.
Qed.

(** ** Runs *)

Lemma run_invariant (P : Sys → Prop) :
  (∀ ev s s', P s → step ev s = Some s' → P s') →
  ∀ evs s s', P s → run evs s = Some s' → P s'.
Proof.
  intros Hstep evs. induction evs as [|ev evs IH]; intros s s' HP Hrun.
  - simpl in Hrun. by injection Hrun as <-.
  - simpl in Hrun. destruct (step ev s) as [s1|] eqn:E; [|done].
    eapply IH; [|done]. by eapply Hstep.
Qed.

Lemma reachable_invariant (P : Sys → Prop) :
  (∀ credential projectId, P (new_RuntimeConfigEnv credential projectId)) →
  (∀ ev s s', P s → step ev s = Some s' → P s') →
  ∀ s, reachable s → P s.
Proof.
  intros Hinit Hstep s (c & p & evs & Hrun).
  by eapply (run_invariant P Hstep evs (new_RuntimeConfigEnv c p)).
Qed.

(** Case analysis on the event of a step: the three public members, the
    reply to the long-poll request, the reply to a variable request. *)
Ltac step_cases Hstep :=
  match type of Hstep with
  | step ?ev ?s = Some _ =>
      destruct ev as [| cb | | i r];
      [ injection Hstep as <-
      | injection Hstep as <-
      | injection Hstep as <-
      | simpl in Hstep;
        destruct (inflight s !! i) as [[[|] o]|] eqn:Hi; [| |done];
        injection Hstep as <- ]
  end.

Lemma step_single_flight ev s s' :
  single_flight s → step ev s = Some s' → single_flight s'.
Proof.
  unfold single_flight. intros Hs Hstep. step_cases Hstep.
  - rewrite ready_inflight, ready_this.
    by destruct (_ready (this s)).
  - done.
  - rewrite data_inflight, data_this.
    by destruct (_ready (this s) && negb (Js.truthy (_merged (this s)))).
  - pose proof (watches_delete_watch _ _ _ Hi) as Hw.
    destruct (watch_then_cases r (receive i s))
      as [(_ & mid & -> & _ & st & Hin & Hst)|[_ ->]].
    * rewrite watch_rearm_eq. simpl. rewrite !watches_app, Hin, watches_app.
      simpl. destruct (_watching (this s)); unfold watches at 3; simpl; lia.
    * simpl. destruct (_watching (this s)); lia.
  - rewrite fetchVar_then_inflight, fetchVar_then_this_watching. simpl.
    by rewrite (watches_delete_variable _ _ _ Hi).
Qed.

Lemma reachable_single_flight s : reachable s → single_flight s.
Proof.
  apply reachable_invariant; [|apply step_single_flight].
  intros c p. unfold single_flight, new_RuntimeConfigEnv.
  destruct (Js.truthy c && Js.truthy p); simpl; unfold watches; simpl; lia.
Qed.

Lemma step_stopped ev s s' : stopped s → step ev s = Some s' → stopped s'.
Proof.
  unfold stopped. intros [Hw Hn] Hstep. step_cases Hstep.
  - rewrite ready_inflight, ready_this.
    by destruct (_ready (this s)).
  - done.
  - rewrite data_inflight, data_this.
    by destruct (_ready (this s) && negb (Js.truthy (_merged (this s)))).
  - pose proof (watches_delete_watch _ _ _ Hi). lia.
  - rewrite fetchVar_then_inflight, fetchVar_then_this_watching. simpl.
    by rewrite (watches_delete_variable _ _ _ Hi).
Qed.

Lemma reachable_new credential projectId :
  reachable (new_RuntimeConfigEnv credential projectId).
Proof. by exists credential, projectId, []. Qed.

(** C2 (amended).  When a watch cycle completes with a DELETED response, a
    response of an unrecognized state, a 502 error, or an UPDATED response
    whose metadata parses, the loop clears the watching guard and at once
    issues the next long-poll request, asking for what is newer than the
    stored [lastUpdated].  After any other transport error the rejection
    skips the re-arming reaction: nothing is sent, the guard stays set, and
    from then on no event starts a long-poll request again. *)
Theorem watch_rearms_unless_error (s : Sys) (i : nat) (o : Options) (r : reply) :
  reachable s →
  inflight s !! i = Some (WatchThen, o) →
  ∃ s',
    step (Complete i r) s = Some s' ∧
    (rearming r = true →
     (∃ mid, s' = watch (with_this (set__watching false) mid)) ∧
     rearms (receive i s) s') ∧
    (∀ err, r = Failure err → rearming r = false →
       s' = receive i s ∧ stopped s' ∧
       ∀ evs s'', run evs s' = Some s'' → stopped s'').
Proof.
  intros Hreach Hi. eexists. split; [by apply (step_watch_reply s i o)|].
  destruct (watch_then_cases r (receive i s))
    as [(Hr & mid & -> & [d Hd] & st & Hst & _)|[Hr ->]].
  - split; [|intros; congruence]. intros _. split; [by exists mid|].
    rewrite watch_rearm_eq.
    unfold rearms. split; [done|]. simpl. split.
    + exists d. rewrite Hd. by rewrite <- app_assoc.
    + exists st. rewrite Hst. by rewrite <- app_assoc.
  - split; [intros; congruence|]. intros err _ _. split; [done|].
    assert (Hstop : stopped (receive i s)).
    { pose proof (reachable_single_flight s Hreach) as Hsf.
      pose proof (watches_delete_watch _ _ _ Hi) as Hw.
      unfold single_flight in Hsf. unfold stopped. simpl.
      destruct (_watching (this s)); [split; [done|lia]|lia]. }
    split; [done|]. intros evs s''.
    by apply (run_invariant stopped step_stopped).
Qed.

(** After a 502 the engine of the samples polls again. *)
Lemma watch_rearms_unless_error_witness :
  ∃ s',
    step (Complete 0 (Failure Sample.error_502)) Sample.engine = Some s' ∧
    rearms (receive 0 Sample.engine) s'.
Proof.
  destruct (watch_rearms_unless_error Sample.engine 0
              (watch_options (this Sample.engine)) (Failure Sample.error_502))
    as (s' & Hstep & Hre & _).
  - exists Sample.credential, Sample.project, []. reflexivity.
  - reflexivity.
  - exists s'. split; [exact Hstep|]. apply (Hre eq_refl).
Defined.

(** C2, as stated, fails: after a 500 on the long-poll request the engine
    of the samples has not re-armed; nothing is in flight and no reply can
    arrive any more. *)
Lemma watch_stops_on_transport_error :
  ∃ s',
    step (Complete 0 (Failure Sample.error_500)) Sample.engine = Some s' ∧
    ¬ rearms (receive 0 Sample.engine) s' ∧
    _watching (this s') = true ∧
    inflight s' = [] ∧
    requests (effects s') = requests (effects Sample.engine) ∧
    ∀ i r, step (Complete i r) s' = None.
Proof.
  eexists. split; [reflexivity|]. split.
  - intros (_ & _ & st & Hst). simpl in Hst. by destruct st.
  - repeat split.
Qed.

(** ** The fields after a step *)

Lemma fetch_this s :
  this (fetch s)
  = if Js.truthy (_customFromMeta (this s))
    then reconciled (_customFromMeta (this s)) (this s)
    else if Js.is_str (version (this s)) "v0"
         then reconciled (VObj ∅) (this s)
         else this s.
Proof.
  destruct (fetch_cases s)
    as [[-> ->]|[(-> & -> & ->)|(-> & -> & o & _ & _ & ->)]];
    by rewrite ?fetch_fulfilled_this.
Qed.

Lemma fetchVar_then_this r s :
  this (fetchVar_then r s) = this s ∨
  ∃ data, this (fetchVar_then r s) = reconciled data (this s).
Proof.
  unfold fetchVar_then. destruct r as [r|err].
  - destruct (fetchVar_fulfilled r) as [data|e].
    + right. exists data. by rewrite fetch_fulfilled_this.
    + rewrite fetch_rejected_this. destruct (Js.nullish e); [by left|].
      right. by exists VUndefined.
  - rewrite fetch_rejected_this. destruct (Js.nullish err); [by left|].
    right. by exists VUndefined.
Qed.

(** The fields after the reactions of [watch]. *)
Lemma watch_then_this r s :
  this (watch_then r s)
  = if rearming r then
      set__watching true
        match r with
        | Response resp =>
            if String.eqb (state resp) "UPDATED" then
              match JSON_parse (text resp) with
              | Some meta =>
                  this (fetch (with_this (set_lastUpdated (updateTime resp))
                                 (with_this (meta_applied meta) s)))
              | None => this s
              end
            else if String.eqb (state resp) "DELETED" then
              set_lastUpdated (updateTime resp)
                (set_version VNull (set__custom (VObj ∅) (this s)))
            else this s
        | Failure _ => this s
        end
    else this s.
Proof.
  destruct (rearming r) eqn:Hr.
  - destruct r as [resp|err].
    + unfold rearming in Hr.
      destruct (String.eqb (state resp) "UPDATED") eqn:Hu.
      * apply String.eqb_eq in Hu.
        destruct (JSON_parse (text resp)) as [meta|] eqn:Hp; [|done].
        apply negb_true_iff in Hr. unfold watch_then.
        by rewrite (watch_fulfilled_updated resp meta).
      * unfold watch_then, watch_fulfilled. rewrite Hu.
        destruct (String.eqb (state resp) "DELETED"); [|done].
        by rewrite watch_rearm_eq, notifyObservers_eq.
    + unfold rearming in Hr. unfold watch_then, watch_rejected. by rewrite Hr.
  - by destruct (watch_then_cases r s) as [[? _]|[_ ->]]; [congruence|].
Qed.

Lemma watch_then_lastUpdated r s :
  lastUpdated (this (watch_then r s))
  = default (lastUpdated (this s)) (stored_time r).
Proof.
  rewrite watch_then_this. unfold stored_time.
  destruct (rearming r) eqn:Hr; [|by destruct r].
  destruct r as [resp|err]; [|done]. simpl.
  destruct (String.eqb (state resp) "UPDATED") eqn:Hu.
  - unfold rearming in Hr. rewrite Hu in Hr.
    destruct (JSON_parse (text resp)) as [meta|]; [|done].
    rewrite fetch_this. simpl.
    repeat match goal with |- context [if ?b then _ else _] => destruct b end;
      reflexivity.
  - simpl. by destruct (String.eqb (state resp) "DELETED").
Qed.

Lemma fetchVar_then_lastUpdated r s :
  lastUpdated (this (fetchVar_then r s)) = lastUpdated (this s).
Proof.
  by destruct (fetchVar_then_this r s) as [->|[d ->]].
Qed.

(** ** Order of timestamps *)

Lemma earlier_irrefl t : earlier t t = false.
Proof.
  unfold earlier. by rewrite (proj2 (String_as_OT.cmp_eq t t) eq_refl).
Qed.

Lemma earlier_lt t1 t2 : earlier t1 t2 = true ↔ String_as_OT.lt t1 t2.
Proof.
  unfold earlier. rewrite <- String_as_OT.cmp_lt.
  destruct (String_as_OT.cmp t1 t2); split; congruence.
Qed.

Lemma not_earlier_trans t1 t2 t3 :
  earlier t2 t1 = false → earlier t3 t2 = false → earlier t3 t1 = false.
Proof.
  intros H12 H23. destruct (earlier t3 t1) eqn:H31; [|done].
  apply earlier_lt in H31.
  destruct (String_as_OT.cmp t1 t2) eqn:Hc.
  - apply String_as_OT.cmp_eq in Hc as ->.
    apply earlier_lt in H31. congruence.
  - apply String_as_OT.cmp_lt in Hc.
    pose proof (String_as_OT.lt_trans _ _ _ H31 Hc) as H%earlier_lt.
    congruence.
  - unfold earlier in H12. rewrite String_as_OT.cmp_antisym, Hc in H12.
    done.
Qed.

Lemma step_lastUpdated_after ev s s' :
  step ev s = Some s' → lastUpdated (this s') = lastUpdated_after ev s.
Proof.
  intros Hstep. unfold lastUpdated_after. step_cases Hstep.
  - rewrite ready_this. by destruct (_ready (this s)).
  - done.
  - rewrite data_this.
    by destruct (_ready (this s) && negb (Js.truthy (_merged (this s)))).
  - by rewrite watch_then_lastUpdated.
  - by rewrite fetchVar_then_lastUpdated.
Qed.

Lemma step_lastUpdated ev s s' :
  timely_event ev s = true → step ev s = Some s' →
  earlier (lastUpdated (this s')) (lastUpdated (this s)) = false.
Proof.
  intros Ht Hstep. rewrite (step_lastUpdated_after ev s s' Hstep).
  unfold lastUpdated_after, timely_event in *.
  destruct ev as [| cb | | i r]; try apply earlier_irrefl.
  destruct (inflight s !! i) as [[[|] o]|]; try apply earlier_irrefl.
  destruct r as [resp|err]; [|apply earlier_irrefl].
  unfold stored_time.
  destruct (rearming (Response resp)
            && (String.eqb (state resp) "UPDATED"
                || String.eqb (state resp) "DELETED")); simpl.
  - by apply negb_true_iff.
  - apply earlier_irrefl.
Qed.

(** C9 (amended).  The reply to the long-poll request stores the
    [updateTime] of an UPDATED response whose metadata parses, and of a
    DELETED response, as [lastUpdated], whatever the stored value was; no
    other event changes [lastUpdated], and nothing compares timestamps.
    Hence over a sequence of events in which no watch response carries an
    [updateTime] earlier than the [lastUpdated] stored when it arrives,
    [lastUpdated] does not end earlier than it started. *)
Theorem lastUpdated_follows_updateTime (evs : list event) (s s' : Sys) :
  run evs s = Some s' →
  (∀ ev s1, step ev s = Some s1 →
            lastUpdated (this s1) = lastUpdated_after ev s) ∧
  (timely evs s = true →
   earlier (lastUpdated (this s')) (lastUpdated (this s)) = false).
Proof.
  intros Hrun. split.
  - intros ev s1. apply step_lastUpdated_after.
  - revert s Hrun. induction evs as [|ev evs IH]; intros s Hrun Ht.
    + injection Hrun as <-. apply earlier_irrefl.
    + simpl in Hrun, Ht. apply andb_true_iff in Ht as [Hev Ht].
      destruct (step ev s) as [s1|] eqn:Hstep; [|done].
      apply (not_earlier_trans _ (lastUpdated (this s1))).
      * by apply (step_lastUpdated ev).
      * by apply IH.
Qed.

Lemma lastUpdated_follows_updateTime_witness :
  ∃ s',
    run [Complete 0 (Sample.deleted Sample.T1);
         Complete 0 (Sample.updated Sample.meta_v2 Sample.T2)] Sample.engine
    = Some s' ∧
    earlier (lastUpdated (this s')) (lastUpdated (this Sample.engine)) = false.
Proof.
  eexists. split; [reflexivity|].
  refine (proj2 (lastUpdated_follows_updateTime
                   [Complete 0 (Sample.deleted Sample.T1);
                    Complete 0 (Sample.updated Sample.meta_v2 Sample.T2)]
                   Sample.engine _ _) _); reflexivity.
Defined.

(** C9, as stated, fails: the server answers T2 and then the earlier T1,
    and the stored timestamp goes back from T2 to T1. *)
Lemma lastUpdated_regresses :
  ∃ s1 s2,
    step (Complete 0 (Sample.deleted Sample.T2)) Sample.engine = Some s1 ∧
    step (Complete 0 (Sample.deleted Sample.T1)) s1 = Some s2 ∧
    lastUpdated (this s1) = Sample.T2 ∧
    lastUpdated (this s2) = Sample.T1 ∧
    earlier (lastUpdated (this s2)) (lastUpdated (this s1)) = true.
Proof. do 2 eexists. repeat split. Qed.

(** ** The merged snapshot *)

Lemma assign_lookup custom reserved k :
  Js.own_props (lodash.assign ∅ [custom; reserved]) !! k
  = match Js.own_props reserved !! k with
    | Some v => Some v
    | None => Js.own_props custom !! k
    end.
Proof.
  unfold lodash.assign, lodash.assign_one. cbn [foldl Js.own_props].
  rewrite (right_id_L ∅ (∪)).
  destruct (Js.own_props reserved !! k) as [v|] eqn:E.
  - by apply lookup_union_Some_l.
  - by rewrite lookup_union_r.
Qed.

Lemma castPath_credential m :
  lodash.castPath "firebase.credential" (VObj m)
  = match m !! "firebase.credential" with
    | Some _ => ["firebase.credential"]
    | None => ["firebase"; "credential"]
    end.
Proof.
  unfold lodash.castPath, lodash.isKey, Js.has.
  cbn [Js.nullish Js.own_props negb andb].
  change (lodash.reIsDeepProp "firebase.credential") with true.
  cbn [negb orb]. by destruct (m !! "firebase.credential").
Qed.

(** What [_.set(object, 'firebase.credential', cred)] makes of an object:
    a property of that very name is overwritten; without one the
    credential goes into the [firebase] object, which is created unless
    there is one. *)
Lemma set_credential_object m cred :
  lodash.set (VObj m) "firebase.credential" cred
  = match m !! "firebase.credential" with
    | Some _ => VObj (<["firebase.credential" := cred]> m)
    | None =>
        VObj (<["firebase" :=
                  VObj (<["credential" := cred]>
                          match m !! "firebase" with
                          | Some (VObj inner) => inner
                          | _ => ∅
                          end)]> m)
    end.
Proof.
  unfold lodash.set. cbn [Js.isObject negb]. rewrite castPath_credential.
  destruct (m !! "firebase.credential"); [reflexivity|].
  simpl. unfold Js.get_prop. simpl.
  by destruct (m !! "firebase") as [[]|].
Qed.


Lemma set_credential_truthy m cred :
  Js.truthy (lodash.set (VObj m) "firebase.credential" cred) = true.
Proof.
  rewrite set_credential_object. by destruct (m !! "firebase.credential").
Qed.

Lemma set_credential_others m cred k :
  k ≠ "firebase" → k ≠ "firebase.credential" →
  Js.own_props (lodash.set (VObj m) "firebase.credential" cred) !! k
  = m !! k.
Proof.
  intros Hk Hl. rewrite set_credential_object.
  destruct (m !! "firebase.credential");
    cbn [Js.own_props]; by rewrite lookup_insert_ne.
Qed.


Lemma set_credential_literal m cred :
  is_Some (m !! "firebase.credential") →
  Js.own_props (lodash.set (VObj m) "firebase.credential" cred)
    !! "firebase.credential" = Some cred ∧
  Js.own_props (lodash.set (VObj m) "firebase.credential" cred)
    !! "firebase" = m !! "firebase".
Proof.
  intros [old Hl]. rewrite set_credential_object, Hl.
  cbn [Js.own_props]. split.
  - by rewrite lookup_insert_eq.
  - by rewrite lookup_insert_ne.
Qed.

(** The keys of [merge] other than the two the credential can touch. *)
Lemma merge_others custom reserved cred k :
  (k ≠ "firebase" ∧ k ≠ "firebase.credential") ∨ Js.truthy cred = false →
  Js.own_props (merge custom reserved cred) !! k
  = match Js.own_props reserved !! k with
    | Some v => Some v
    | None => Js.own_props custom !! k
    end.
Proof.
  intros Hk. rewrite <- assign_lookup. unfold merge.
  destruct (Js.truthy cred) eqn:Hc; [|done].
  destruct Hk as [[Hk Hl]|Hk]; [|done].
  unfold lodash.assign. by apply set_credential_others.
Qed.


(** The credential in [merge] when a key is literally
    [firebase.credential]. *)
Lemma merge_literal custom reserved cred :
  Js.truthy cred = true →
  is_Some (match Js.own_props reserved !! "firebase.credential" with
           | Some v => Some v
           | None => Js.own_props custom !! "firebase.credential"
           end) →
  Js.own_props (merge custom reserved cred) !! "firebase.credential"
  = Some cred ∧
  Js.own_props (merge custom reserved cred) !! "firebase"
  = match Js.own_props reserved !! "firebase" with
    | Some v => Some v
    | None => Js.own_props custom !! "firebase"
    end.
Proof.
  intros Hc Hl. rewrite <- !assign_lookup in *.
  unfold merge. rewrite Hc. unfold lodash.assign in *.
  by apply set_credential_literal.
Qed.

(** ** The cache *)

Lemma cache_ok_empty e : Js.truthy (_merged e) = false → cache_ok e.
Proof. unfold cache_ok. congruence. Qed.


Lemma cache_ok_meta_applied meta t e :
  cache_ok (set_lastUpdated t (meta_applied meta e)).
Proof.
  apply cache_ok_empty. unfold meta_applied.
  by destruct (Js.truthy (Js.get_prop meta "latest")).
Qed.






(** ** An instance without credential or project *)

Lemma new_never_started credential projectId :
  Js.truthy credential = false ∨ Js.truthy projectId = false →
  never_started (new_RuntimeConfigEnv credential projectId).
Proof.
  intros H. unfold new_RuntimeConfigEnv.
  assert (Js.truthy credential && Js.truthy projectId = false) as ->.
  { destruct H as [-> | ->]; [done|apply andb_false_r]. }
  by repeat split.
Qed.

Lemma step_never_started ev s s' :
  never_started s → step ev s = Some s' → never_started s'.
Proof.
  intros (Hw & Hr & Hf & He & Hs & Hl) Hstep. step_cases Hstep.
  - unfold ready, new_promise. simpl. rewrite Hr. simpl.
    repeat split; try done.
    change (_readyListeners (this s) ++ [next_promise s]
            = seq 0 (S (next_promise s))).
    by rewrite Hl, seq_S.
  - by repeat split.
  - unfold data. rewrite Hr. by repeat split.
  - by rewrite Hf in Hi.
  - by rewrite Hf in Hi.
Qed.

(** C10.  An engine constructed without a credential or without a project
    identifier never starts the watch loop: in every state it can reach,
    the guard is clear, no request was sent or is in flight, no reply can
    be delivered, readiness is not established, and every promise
    [ready()] has returned, or returns next, sits in the listener queue
    unsettled. *)
Theorem absent_credentials_never_settle
    (credential projectId : value) (evs : list event) (s : Sys) :
  Js.truthy credential = false ∨ Js.truthy projectId = false →
  run evs (new_RuntimeConfigEnv credential projectId) = Some s →
  _watching (this s) = false ∧
  requests (effects s) = [] ∧
  inflight s = [] ∧
  (∀ i r, step (Complete i r) s = None) ∧
  _ready (this s) = false ∧
  (∀ p, settled s !! p = None) ∧
  (∀ p, (p < next_promise s)%nat → p ∈ _readyListeners (this s)) ∧
  fst (ready s) = next_promise s ∧
  fst (ready s) ∈ _readyListeners (this (snd (ready s))) ∧
  settled (snd (ready s)) !! fst (ready s) = None.
Proof.
  intros Habsent Hrun.
  assert (Hn : never_started s).
  { eapply (run_invariant never_started step_never_started); [|done].
    by apply new_never_started. }
  destruct Hn as (Hw & Hr & Hf & He & Hs & Hl).
  split; [done|]. split; [by rewrite He|]. split; [done|].
  split; [intros i r; simpl; by rewrite Hf|]. split; [done|].
  split; [intros p; by rewrite Hs|].
  split; [intros p Hp; rewrite Hl; apply list_elem_of_In, in_seq; lia|].
  unfold ready, new_promise. simpl. rewrite Hr. simpl.
  split; [done|]. split; [|by rewrite Hs].
  apply elem_of_app. right. apply list_elem_of_here.
Qed.

Lemma absent_credentials_never_settle_witness :
  ∃ s,
    run [CallReady; CallObserve 3%nat; GetData; CallReady]
      (new_RuntimeConfigEnv VUndefined Sample.project) = Some s ∧
    _ready (this s) = false ∧
    settled s !! 0%nat = None ∧
    settled s !! 1%nat = None.
Proof.
  eexists. split; [reflexivity|].
  destruct (absent_credentials_never_settle VUndefined Sample.project
              [CallReady; CallObserve 3%nat; GetData; CallReady] _
              (or_introl eq_refl) eq_refl)
    as (_ & _ & _ & _ & Hr & Hs & _).
  split; [exact Hr|]. split; apply Hs.
Defined.

(** ** Promises *)

Lemma fetch_fulfilled_others data p s :
  p ∉ _readyListeners (this s) →
  settled (fetch_fulfilled data s) !! p = settled s !! p.
Proof.
  intros Hp. unfold fetch_fulfilled. rewrite notifyObservers_eq. simpl.
  by rewrite notifyReady_others.
Qed.

Lemma fetch_rejected_promises err s :
  next_promise (snd (fetch_rejected err s)) = next_promise s ∧
  ∀ p, p ∉ _readyListeners (this s) →
       settled (snd (fetch_rejected err s)) !! p = settled s !! p.
Proof.
  unfold fetch_rejected. destruct (Js.nullish err); [done|]. simpl.
  rewrite notifyReady_next_promise. split; [done|].
  intros p Hp. by rewrite notifyReady_others.
Qed.

Lemma fetch_promises s :
  next_promise (fetch s) = next_promise s ∧
  ∀ p, p ∉ _readyListeners (this s) → settled (fetch s) !! p = settled s !! p.
Proof.
  destruct (fetch_cases s)
    as [[_ ->]|[(_ & _ & ->)|(_ & _ & o & _ & _ & ->)]];
    rewrite ?fetch_fulfilled_next_promise; (split; [done|]); try done;
    intros p Hp; by apply fetch_fulfilled_others.
Qed.

Lemma meta_applied_listeners meta e :
  _readyListeners (meta_applied meta e) = _readyListeners e.
Proof.
  unfold meta_applied. by destruct (Js.truthy (Js.get_prop meta "latest")).
Qed.

Lemma watch_then_promises r s :
  next_promise (watch_then r s) = next_promise s ∧
  ∀ p, p ∉ _readyListeners (this s) →
       settled (watch_then r s) !! p = settled s !! p.
Proof.
  destruct (rearming r) eqn:Hr.
  - destruct r as [resp|err].
    + unfold rearming in Hr.
      destruct (String.eqb (state resp) "UPDATED") eqn:Hu.
      * apply String.eqb_eq in Hu.
        destruct (JSON_parse (text resp)) as [meta|] eqn:Hp; [|done].
        apply negb_true_iff in Hr. unfold watch_then.
        rewrite (watch_fulfilled_updated resp meta) by done.
        rewrite watch_rearm_eq. simpl.
        destruct (fetch_promises
                    (with_this (set_lastUpdated (updateTime resp))
                       (with_this (meta_applied meta) s))) as [Hn Hs].
        split; [done|]. intros p Hin. apply Hs. simpl.
        by rewrite meta_applied_listeners.
      * unfold watch_then, watch_fulfilled. rewrite Hu.
        destruct (String.eqb (state resp) "DELETED"); [|done].
        by rewrite watch_rearm_eq, notifyObservers_eq.
    + unfold rearming in Hr. unfold watch_then, watch_rejected. by rewrite Hr.
  - by destruct (watch_then_cases r s) as [[? _]|[_ ->]]; [congruence|].
Qed.

Lemma fetchVar_then_promises r s :
  next_promise (fetchVar_then r s) = next_promise s ∧
  ∀ p, p ∉ _readyListeners (this s) →
       settled (fetchVar_then r s) !! p = settled s !! p.
Proof.
  unfold fetchVar_then. destruct r as [r|err].
  - destruct (fetchVar_fulfilled r).
    + rewrite fetch_fulfilled_next_promise. split; [done|].
      intros p Hp. by apply fetch_fulfilled_others.
    + apply fetch_rejected_promises.
  - apply fetch_rejected_promises.
Qed.

Lemma watch_then_listeners r s p :
  p ∈ _readyListeners (this (watch_then r s)) → p ∈ _readyListeners (this s).
Proof.
  rewrite watch_then_this. destruct (rearming r); [|done].
  destruct r as [resp|err]; [|done]. simpl.
  destruct (String.eqb (state resp) "UPDATED").
  - destruct (JSON_parse (text resp)) as [meta|]; [|done].
    rewrite fetch_this. simpl.
    repeat match goal with |- context [if ?b then _ else _] => destruct b end;
      simpl; rewrite ?meta_applied_listeners; try done;
      by intros ?%elem_of_nil.
  - by destruct (String.eqb (state resp) "DELETED").
Qed.

Lemma fetchVar_then_listeners r s p :
  p ∈ _readyListeners (this (fetchVar_then r s)) →
  p ∈ _readyListeners (this s).
Proof.
  destruct (fetchVar_then_this r s) as [->|[d ->]]; [done|].
  by intros ?%elem_of_nil.
Qed.

Lemma step_promises_ok ev s s' :
  promises_ok s → step ev s = Some s' → promises_ok s'.
Proof.
  intros [Hl Hs] Hstep. step_cases Hstep.
  - unfold promises_ok, ready, new_promise. simpl.
    destruct (_ready (this s)).
    + destruct (Js.truthy (_readyError (this s))); simpl;
        rewrite settle_this, settle_next_promise; simpl;
        (split; [intros p Hp; specialize (Hl p Hp); lia|]);
        intros p Hp; rewrite settle_other by lia; simpl; apply Hs; lia.
    + simpl. split.
      * intros p [Hp|Hp%list_elem_of_singleton]%elem_of_app; [|lia].
        specialize (Hl p Hp). lia.
      * intros p Hp. apply Hs. lia.
  - done.
  - unfold promises_ok. rewrite data_settled.
    unfold data. destruct (_ready (this s)); [|done]. simpl.
    by destruct (Js.truthy (_merged (this s))).
  - destruct (watch_then_promises r (receive i s)) as [Hn Hk].
    split.
    * intros p Hp%watch_then_listeners. rewrite Hn. by apply Hl.
    * intros p Hp. rewrite Hn in Hp. rewrite Hk; [by apply Hs|].
      intros Hin. specialize (Hl p Hin). simpl in Hp. lia.
  - destruct (fetchVar_then_promises r (receive i s)) as [Hn Hk].
    split.
    * intros p Hp%fetchVar_then_listeners. rewrite Hn. by apply Hl.
    * intros p Hp. rewrite Hn in Hp. rewrite Hk; [by apply Hs|].
      intros Hin. specialize (Hl p Hin). simpl in Hp. lia.
Qed.

Lemma reachable_promises_ok s : reachable s → promises_ok s.
Proof.
  apply reachable_invariant; [|apply step_promises_ok].
  intros c p. unfold new_RuntimeConfigEnv.
  destruct (Js.truthy c && Js.truthy p); split; simpl; try done;
    by intros ? ?%elem_of_nil.
Qed.

Lemma step_readyError ev s s' :
  step ev s = Some s' → _readyError (this s') = _readyError (this s).
Proof.
  intros Hstep. step_cases Hstep.
  - rewrite ready_this. by destruct (_ready (this s)).
  - done.
  - rewrite data_this.
    by destruct (_ready (this s) && negb (Js.truthy (_merged (this s)))).
  - rewrite watch_then_this. destruct (rearming r); [|done].
    destruct r as [resp|err]; [|done]. simpl.
    destruct (String.eqb (state resp) "UPDATED").
    * destruct (JSON_parse (text resp)) as [meta|]; [|done].
      rewrite fetch_this. simpl. unfold meta_applied.
      repeat match goal with
             | |- context [if ?b then _ else _] => destruct b
             end; reflexivity.
    * by destruct (String.eqb (state resp) "DELETED").
  - by destruct (fetchVar_then_this r (receive i s)) as [->|[d ->]].
Qed.

(** No instance ever holds an error in [_readyError]. *)
Lemma reachable_readyError s : reachable s → _readyError (this s) = VUndefined.
Proof.
  apply (reachable_invariant (λ s, _readyError (this s) = VUndefined)).
  - intros c p. unfold new_RuntimeConfigEnv.
    by destruct (Js.truthy c && Js.truthy p).
  - intros ev s0 s' H Hstep. by rewrite (step_readyError ev s0 s').
Qed.

(** So once readiness is established, however it was, [ready()] returns a
    resolved promise. *)
Lemma late_ready_resolves s :
  reachable s → _ready (this s) = true →
  settled (snd (ready s)) !! fst (ready s) = Some Resolved.
Proof.
  intros Hreach Hr. pose proof (reachable_readyError s Hreach) as He.
  destruct (reachable_promises_ok s Hreach) as [_ Hfresh].
  unfold ready, new_promise. simpl. rewrite Hr, He. simpl.
  apply settle_pending. simpl. by apply Hfresh.
Qed.

(** Once the metadata has carried inlined configuration, [_customFromMeta]
    stays set, and [fetch] takes it instead of asking for the variable. *)
Lemma step_customFromMeta ev s s' :
  Js.truthy (_customFromMeta (this s)) = true → step ev s = Some s' →
  Js.truthy (_customFromMeta (this s')) = true.
Proof.
  intros Ht Hstep. step_cases Hstep.
  - rewrite ready_this. by destruct (_ready (this s)).
  - done.
  - rewrite data_this.
    by destruct (_ready (this s) && negb (Js.truthy (_merged (this s)))).
  - rewrite watch_then_this. destruct (rearming r); [|done].
    destruct r as [resp|err]; [|done]. simpl.
    destruct (String.eqb (state resp) "UPDATED").
    * destruct (JSON_parse (text resp)) as [meta|]; [|done].
      rewrite fetch_this. simpl. unfold meta_applied.
      destruct (Js.truthy (Js.get_prop meta "latest")) eqn:Hl; simpl;
        rewrite ?Hl, ?Ht; simpl; by rewrite ?Hl, ?Ht.
    * by destruct (String.eqb (state resp) "DELETED").
  - by destruct (fetchVar_then_this r (receive i s)) as [->|[d ->]].
Qed.

Lemma fetch_takes_customFromMeta s :
  Js.truthy (_customFromMeta (this s)) = true →
  fetch s = fetch_fulfilled (_customFromMeta (this s)) s.
Proof.
  intros Ht.
  destruct (fetch_cases s) as [[_ ->]|[(H & _)|(H & _)]]; congruence.
Qed.

(** ** Defects *)

(** C1: the code does not do what the claim says.  [_notifyReady] never
    stores the error in [_readyError].  On the engine of the samples a
    caller who asked before the first fetch failed is rejected with the
    error; a caller who asks afterwards finds [_readyError] undefined and
    is resolved. *)
Theorem ready_after_failed_fetch_resolves :
  let early := fst (ready Sample.engine) in
  ∃ s1,
    run Sample.first_fetch_fails (snd (ready Sample.engine)) = Some s1 ∧
    _ready (this s1) = true ∧
    _readyError (this s1) = VUndefined ∧
    settled s1 !! early = Some (Rejected Sample.error_500) ∧
    settled (snd (ready s1)) !! fst (ready s1) = Some Resolved ∧
    fst (ready s1) ≠ early.
Proof.
  simpl. eexists. split; [vm_compute; reflexivity|].
  repeat split; try (vm_compute; reflexivity). by vm_compute.
Qed.

(** C3: the code does not do what the claim says.  The DELETED branch
    empties [_custom] without clearing [_merged].  On the engine of the
    samples version v1 arrives with its configuration inlined and [data] is
    read; after a DELETED event [data] still returns that snapshot, key [a]
    included, not the merge of the emptied [custom]. *)
Theorem deleted_keeps_stale_snapshot :
  ∃ s1 s2 snapshot,
    run [Complete 0 (Sample.updated Sample.meta_v1_latest Sample.T1); GetData]
      Sample.engine = Some s1 ∧
    step (Complete 0 (Sample.deleted Sample.T2)) s1 = Some s2 ∧
    _custom (this s1) = Sample.latest1 ∧
    _custom (this s2) = VObj ∅ ∧
    fst (data s1) = Normal snapshot ∧
    fst (data s2) = Normal snapshot ∧
    snd (data s2) = s2 ∧
    Js.own_props snapshot !! "a" = Some (VNum 1) ∧
    Js.own_props
      (merge (_custom (this s2)) (_reserved (this s2)) (credential (this s2)))
      !! "a" = None.
Proof.
  do 3 eexists. split; [vm_compute; reflexivity|].
  split; [vm_compute; reflexivity|].
  repeat split; vm_compute; reflexivity.
Qed.

(** C4: the code does not do what the claim says.  The setter [_meta]
    stores [latest] in [_customFromMeta] and never clears it.  On the
    engine of the samples version v1 arrives with its configuration
    inlined, then version v2 without: no variable request goes out for v2
    (the three requests sent so far are the long-polls) and the
    configuration of v1 is stored as that of v2.  The same response on a
    fresh engine does send the GET for v2. *)
Theorem stale_latest_suppresses_fetch :
  ∃ s1 s2 fresh,
    step (Complete 0 (Sample.updated Sample.meta_v1_latest Sample.T1))
      Sample.engine = Some s1 ∧
    step (Complete 0 (Sample.updated Sample.meta_v2 Sample.T2)) s1 = Some s2 ∧
    Js.get_prop Sample.meta_v2 "latest" = VUndefined ∧
    version (this s2) = VStr "v2" ∧
    _custom (this s2) = Sample.latest1 ∧
    map method (requests (effects s2)) = ["POST"; "POST"; "POST"] ∧
    map fst (inflight s2) = [WatchThen] ∧
    step (Complete 0 (Sample.updated Sample.meta_v2 Sample.T2)) Sample.engine
    = Some fresh ∧
    map method (requests (effects fresh)) = ["POST"; "GET"; "POST"] ∧
    map fst (inflight fresh) = [FetchVarThen; WatchThen].
Proof.
  do 3 eexists. split; [vm_compute; reflexivity|].
  split; [vm_compute; reflexivity|].
  repeat split; vm_compute; reflexivity.
Qed.

(** C5, as stated, fails: with an observer registered, the reconciliation
    after the failed fetch of the samples empties [custom] and establishes
    readiness but calls no observer. *)
Lemma failed_fetch_calls_no_observer :
  ∃ s,
    run Sample.first_fetch_fails (observe 7%nat Sample.engine) = Some s ∧
    _observers (this s) = [7%nat] ∧
    _ready (this s) = true ∧
    _custom (this s) = VObj ∅ ∧
    observer_calls (effects s) = [].
Proof.
  eexists. split; [vm_compute; reflexivity|].
  repeat split; vm_compute; reflexivity.
Qed.

(** * Further properties *)

(** ** Quiet stretches and the shape of a step *)

Lemma settlements_app l1 l2 :
  settlements (l1 ++ l2) = settlements l1 ++ settlements l2.
Proof. apply omap_app. Qed.

Lemma requests_app l1 l2 : requests (l1 ++ l2) = requests l1 ++ requests l2.
Proof. apply omap_app. Qed.

Lemma observer_calls_app l1 l2 :
  observer_calls (l1 ++ l2) = observer_calls l1 ++ observer_calls l2.
Proof. apply omap_app. Qed.

Lemma settlements_listeners err queue :
  settlements (map (listener_effect err) queue) = queue.
Proof.
  induction queue as [|p queue IH]; [done|]. simpl.
  unfold listener_effect at 1. destruct (Js.truthy err); simpl; by rewrite IH.
Qed.

Lemma requests_listeners err queue :
  requests (map (listener_effect err) queue) = [].
Proof.
  induction queue as [|p queue IH]; [done|]. simpl.
  unfold listener_effect at 1. by destruct (Js.truthy err).
Qed.

Lemma observer_calls_listeners err queue :
  observer_calls (map (listener_effect err) queue) = [].
Proof.
  induction queue as [|p queue IH]; [done|]. simpl.
  unfold listener_effect at 1. by destruct (Js.truthy err).
Qed.

Lemma settlements_observers data obs :
  settlements (map (λ cb, ObserverCall cb data) obs) = [].
Proof. by induction obs. Qed.

Lemma requests_observers data obs :
  requests (map (λ cb, ObserverCall cb data) obs) = [].
Proof. by induction obs. Qed.

Lemma observer_calls_observers data obs :
  observer_calls (map (λ cb, ObserverCall cb data) obs)
  = map (λ cb, (cb, data)) obs.
Proof. induction obs as [|cb obs IH]; [done|]. simpl. by rewrite IH. Qed.

Lemma request_ok_ext e e' o :
  projectId e = projectId e' → request_ok e o → request_ok e' o.
Proof.
  intros Hp [[t ->]|(name & Hn & ->)].
  - left. exists t. unfold watch_options, varurl, varname. simpl.
    by rewrite Hp.
  - right. exists name. split; [done|].
    unfold variable_options, varurl, varname. by rewrite Hp.
Qed.

Lemma request_ok_watch e : request_ok e (watch_options e).
Proof. left. by exists (lastUpdated e). Qed.

Lemma quiet_refl s : quiet s s.
Proof.
  repeat split. exists []. rewrite app_nil_r. by repeat split.
Qed.

Lemma quiet_trans a b c : quiet a b → quiet b c → quiet a c.
Proof.
  intros (Hs1 & Hn1 & Hl1 & Hr1 & Hp1 & Hc1 & d1 & He1 & Hd1 & Hq1)
         (Hs2 & Hn2 & Hl2 & Hr2 & Hp2 & Hc2 & d2 & He2 & Hd2 & Hq2).
  unfold quiet. rewrite Hs2, Hn2, Hl2, Hr2, Hp2, Hc2.
  repeat split; try done.
  exists (d1 ++ d2). rewrite He2, He1, <- app_assoc. split; [done|].
  rewrite settlements_app, requests_app, Hd1, Hd2. split; [done|].
  apply Forall_app. split; [done|].
  eapply Forall_impl; [exact Hq2|]. intros o. by apply request_ok_ext.
Qed.

(** Assigning fields other than readiness, the queue, the project and the
    credential. *)
Lemma quiet_with_this f s :
  _readyListeners (f (this s)) = _readyListeners (this s) →
  _ready (f (this s)) = _ready (this s) →
  projectId (f (this s)) = projectId (this s) →
  credential (f (this s)) = credential (this s) →
  quiet s (with_this f s).
Proof.
  intros Hl Hr Hp Hc. unfold quiet. simpl. repeat split; try done.
  exists []. rewrite app_nil_r. by repeat split.
Qed.

Lemma quiet_notifyObservers data s : quiet s (_notifyObservers data s).
Proof.
  rewrite notifyObservers_eq. unfold quiet. simpl. repeat split.
  eexists. split; [done|].
  rewrite settlements_observers, requests_observers. by split.
Qed.

Lemma quiet_send k o s : request_ok (this s) o → quiet s (send k o s).
Proof.
  intros Ho. unfold quiet. simpl. repeat split.
  exists [Http o]. repeat split. simpl. by apply Forall_singleton.
Qed.

Lemma quiet_receive i s : quiet s (receive i s).
Proof.
  unfold quiet. simpl. repeat split. exists []. rewrite app_nil_r.
  by repeat split.
Qed.

Lemma quiet_watch_rearm s : quiet s (watch_rearm s).
Proof.
  rewrite watch_rearm_eq. unfold quiet. simpl. repeat split.
  exists [Http (watch_options (this s))]. repeat split.
  simpl. apply Forall_singleton, request_ok_watch.
Qed.

Lemma quiet_meta_applied meta t s :
  quiet s (with_this (set_lastUpdated t) (with_this (meta_applied meta) s)).
Proof.
  eapply quiet_trans; [apply (quiet_with_this (meta_applied meta))|];
    try (unfold meta_applied;
         by destruct (Js.truthy (Js.get_prop meta "latest"))).
  by apply quiet_with_this.
Qed.

(** A reconciliation is a quiet stretch, [_notifyReady], a quiet stretch. *)
Lemma fetch_fulfilled_shape data s :
  ∃ s1, quiet s s1 ∧ quiet (_notifyReady VUndefined s1) (fetch_fulfilled data s).
Proof.
  exists (with_this (set__custom (Js.or data (VObj ∅)))
            (with_this (set__merged VNull) s)).
  split; [|apply quiet_notifyObservers].
  apply (quiet_trans _ (with_this (set__merged VNull) s));
    by apply quiet_with_this.
Qed.

Lemma fetch_rejected_shape err s :
  quiet s (snd (fetch_rejected err s)) ∨
  ∃ s1, quiet s s1 ∧ quiet (_notifyReady err s1) (snd (fetch_rejected err s)).
Proof.
  unfold fetch_rejected. destruct (Js.nullish err).
  - left. apply quiet_refl.
  - right. simpl.
    exists (with_this (set__custom (VObj ∅)) (with_this (set__merged VNull) s)).
    split; [|apply quiet_refl].
    apply (quiet_trans _ (with_this (set__merged VNull) s));
      by apply quiet_with_this.
Qed.

Lemma fetch_request_eq s :
  Js.truthy (_customFromMeta (this s)) = false →
  Js.is_str (version (this s)) "v0" = false →
  fetch s = send FetchVarThen (variable_options (this s) (version (this s))) s.
Proof. intros Hc Hv. unfold fetch, fetchVar. by rewrite Hc, Hv. Qed.

Lemma fetch_shape s :
  quiet s (fetch s) ∨
  ∃ s1, quiet s s1 ∧ quiet (_notifyReady VUndefined s1) (fetch s).
Proof.
  destruct (fetch_cases s) as [[_ ->]|[(_ & _ & ->)|(Hc & Hv & _)]].
  - right. apply fetch_fulfilled_shape.
  - right. apply fetch_fulfilled_shape.
  - left. rewrite fetch_request_eq by done. apply quiet_send.
    right. by eexists.
Qed.

Lemma watch_then_shape r s :
  quiet s (watch_then r s) ∨
  ∃ err s1, quiet s s1 ∧ quiet (_notifyReady err s1) (watch_then r s).
Proof.
  destruct (rearming r) eqn:Hr.
  - destruct r as [resp|err].
    + unfold rearming in Hr.
      destruct (String.eqb (state resp) "UPDATED") eqn:Hu.
      * apply String.eqb_eq in Hu.
        destruct (JSON_parse (text resp)) as [meta|] eqn:Hp; [|done].
        apply negb_true_iff in Hr. unfold watch_then.
        rewrite (watch_fulfilled_updated resp meta) by done.
        pose proof (quiet_meta_applied meta (updateTime resp) s) as Hq.
        destruct (fetch_shape
                    (with_this (set_lastUpdated (updateTime resp))
                       (with_this (meta_applied meta) s)))
          as [Hf|(s1 & Hq1 & Hq2)].
        -- left. eapply quiet_trans; [exact Hq|].
           eapply quiet_trans; [exact Hf|apply quiet_watch_rearm].
        -- right. exists VUndefined, s1. split.
           ++ by eapply quiet_trans.
           ++ eapply quiet_trans; [exact Hq2|apply quiet_watch_rearm].
      * left. unfold watch_then, watch_fulfilled. rewrite Hu.
        destruct (String.eqb (state resp) "DELETED").
        -- eapply quiet_trans; [|apply quiet_watch_rearm].
           eapply quiet_trans; [apply quiet_notifyObservers|].
           eapply quiet_trans;
             [by apply (quiet_with_this (set__custom (VObj ∅)))|].
           eapply quiet_trans;
             [by apply (quiet_with_this (set_version VNull))|].
           by apply (quiet_with_this (set_lastUpdated (updateTime resp))).
        -- apply quiet_watch_rearm.
    + left. unfold rearming in Hr. unfold watch_then, watch_rejected.
      rewrite Hr. apply quiet_watch_rearm.
  - left. destruct (watch_then_cases r s) as [[? _]|[_ ->]]; [congruence|].
    apply quiet_refl.
Qed.

Lemma fetchVar_then_shape r s :
  quiet s (fetchVar_then r s) ∨
  ∃ err s1, quiet s s1 ∧ quiet (_notifyReady err s1) (fetchVar_then r s).
Proof.
  unfold fetchVar_then. destruct r as [r|err].
  - destruct (fetchVar_fulfilled r) as [data|e].
    + right. exists VUndefined. apply fetch_fulfilled_shape.
    + destruct (fetch_rejected_shape e s) as [?|?]; [by left|right; by exists e].
  - destruct (fetch_rejected_shape err s) as [?|?]; [by left|right; by exists err].
Qed.

(** Every step is a call of [ready()], a quiet stretch, or a quiet stretch,
    [_notifyReady], a quiet stretch. *)
Lemma step_shape ev s s' :
  step ev s = Some s' →
  (ev = CallReady ∧ s' = snd (ready s)) ∨
  quiet s s' ∨
  ∃ err s1, quiet s s1 ∧ quiet (_notifyReady err s1) s'.
Proof.
  intros Hstep. step_cases Hstep.
  - by left.
  - right; left. by apply quiet_with_this.
  - right; left. unfold data. destruct (_ready (this s)); [|apply quiet_refl].
    simpl. destruct (Js.truthy (_merged (this s))); [apply quiet_refl|].
    by apply quiet_with_this.
  - right. destruct (watch_then_shape r (receive i s))
      as [Hq|(err & s1 & Hq1 & Hq2)].
    + left. eapply quiet_trans; [apply quiet_receive|done].
    + right. exists err, s1. split; [|done].
      eapply quiet_trans; [apply quiet_receive|done].
  - right. destruct (fetchVar_then_shape r (receive i s))
      as [Hq|(err & s1 & Hq1 & Hq2)].
    + left. eapply quiet_trans; [apply quiet_receive|done].
    + right. exists err, s1. split; [|done].
      eapply quiet_trans; [apply quiet_receive|done].
Qed.

Lemma shape_invariant (P : Sys → Prop) :
  (∀ a b, quiet a b → P a → P b) →
  (∀ err s, P s → P (_notifyReady err s)) →
  (∀ s, P s → P (snd (ready s))) →
  ∀ ev s s', P s → step ev s = Some s' → P s'.
Proof.
  intros Hq Hn Hr ev s s' HP Hstep.
  destruct (step_shape ev s s' Hstep)
    as [[_ ->]|[Hqs|(err & s1 & Hq1 & Hq2)]].
  - by apply Hr.
  - by apply (Hq s).
  - apply (Hq _ _ Hq2), Hn. by apply (Hq s).
Qed.

Lemma new_effects credential projectId :
  effects (new_RuntimeConfigEnv credential projectId) = [] ∨
  effects (new_RuntimeConfigEnv credential projectId)
  = [Http (watch_options (new_Env credential projectId))].
Proof.
  unfold new_RuntimeConfigEnv.
  destruct (Js.truthy credential && Js.truthy projectId); [by right|by left].
Qed.

Lemma new_this credential projectId :
  this (new_RuntimeConfigEnv credential projectId)
  = set__watching (Js.truthy credential && Js.truthy projectId)
      (new_Env credential projectId).
Proof.
  unfold new_RuntimeConfigEnv.
  by destruct (Js.truthy credential && Js.truthy projectId).
Qed.

Lemma ready_next_promise s :
  next_promise (snd (ready s)) = S (next_promise s).
Proof.
  unfold ready, new_promise. simpl. destruct (_ready (this s)); [|done].
  destruct (Js.truthy (_readyError (this s))); simpl;
    by rewrite settle_next_promise.
Qed.

Lemma settle_is_Some p o s : is_Some (settled (settle p o s) !! p).
Proof.
  destruct (settled s !! p) as [o'|] eqn:E.
  - exists o'. by apply settle_kept.
  - exists o. by apply settle_pending.
Qed.

Lemma settle_mono p o q s :
  is_Some (settled s !! q) → is_Some (settled (settle p o s) !! q).
Proof. intros [o' H]. exists o'. by apply settle_kept. Qed.

(** *** Readiness *)

Lemma step_ready_stays ev s s' :
  _ready (this s) = true → step ev s = Some s' → _ready (this s') = true.
Proof.
  apply (shape_invariant (λ s, _ready (this s) = true)).
  - intros a b (_ & _ & _ & Hr & _) Ha. by rewrite Hr.
  - intros err s0 _. by rewrite notifyReady_this.
  - intros s0 H. rewrite ready_this. by rewrite H.
Qed.

Lemma step_ready_queue ev s s' :
  (_ready (this s) = true → _readyListeners (this s) = []) →
  step ev s = Some s' →
  _ready (this s') = true → _readyListeners (this s') = [].
Proof.
  apply (shape_invariant
           (λ s, _ready (this s) = true → _readyListeners (this s) = [])).
  - intros a b (_ & _ & Hl & Hr & _) Ha. by rewrite Hl, Hr.
  - intros err s0 _ _. by rewrite notifyReady_this.
  - intros s0 H. rewrite ready_this.
    destruct (_ready (this s0)) eqn:E; [intros _; by apply H|].
    simpl. congruence.
Qed.

Lemma reachable_ready_queue s :
  reachable s → _ready (this s) = true → _readyListeners (this s) = [].
Proof.
  apply (reachable_invariant
           (λ s, _ready (this s) = true → _readyListeners (this s) = [])).
  - intros c p. by rewrite new_this.
  - intros ev s0 s'. apply step_ready_queue.
Qed.

(** *** Callers *)

Lemma step_callers_accounted ev s s' :
  callers_accounted s → step ev s = Some s' → callers_accounted s'.
Proof.
  apply (shape_invariant callers_accounted).
  - intros a b (Hs & Hn & Hl & _) Ha p. rewrite Hs, Hn, Hl. apply Ha.
  - intros err s0 H p. rewrite notifyReady_next_promise. intros Hp.
    left. destruct (H p Hp) as [[o Ho]|Hin].
    + exists o. by apply notifyReady_kept.
    + destruct (settled s0 !! p) as [o|] eqn:E.
      * exists o. by apply notifyReady_kept.
      * eexists. by apply notifyReady_settles.
  - intros s0 H p. rewrite ready_next_promise. intros Hp.
    unfold ready, new_promise. simpl.
    destruct (decide (p = next_promise s0)) as [->|Hne].
    + destruct (_ready (this s0)).
      * left. destruct (Js.truthy (_readyError (this s0))); simpl;
          apply settle_is_Some.
      * right. simpl. apply elem_of_app. right. apply list_elem_of_here.
    + assert (Hlt : (p < next_promise s0)%nat) by lia.
      destruct (H p Hlt) as [Hs|Hin].
      * left. destruct (_ready (this s0)); [|done].
        destruct (Js.truthy (_readyError (this s0))); simpl;
          by apply settle_mono.
      * right. destruct (_ready (this s0)).
        -- destruct (Js.truthy (_readyError (this s0))); simpl;
             by rewrite settle_this.
        -- simpl. apply elem_of_app. by left.
Qed.

Lemma reachable_callers_accounted s : reachable s → callers_accounted s.
Proof.
  apply reachable_invariant; [|apply step_callers_accounted].
  intros c p q Hq. unfold new_RuntimeConfigEnv in Hq.
  destruct (Js.truthy c && Js.truthy p); simpl in Hq; lia.
Qed.

Lemma step_called_once ev s s' :
  called_once s → step ev s = Some s' → called_once s'.
Proof.
  apply (shape_invariant called_once).
  - intros a b (_ & Hn & Hl & _ & _ & _ & d & He & Hd & _) Ha.
    unfold called_once.
    by rewrite He, settlements_app, Hd, app_nil_r, Hl, Hn.
  - intros err s0 Ha. unfold called_once.
    rewrite notifyReady_effects, notifyReady_this, notifyReady_next_promise.
    simpl. by rewrite settlements_app, settlements_listeners, app_nil_r.
  - intros s0 [Hnd Hlt]. unfold called_once.
    rewrite ready_effects, ready_next_promise, ready_this.
    destruct (_ready (this s0)).
    + split; [done|]. intros p Hp. specialize (Hlt p Hp). lia.
    + simpl. rewrite app_assoc. split.
      * apply NoDup_app. split; [done|]. split; [|apply NoDup_singleton].
        intros p Hp Hq%list_elem_of_singleton. specialize (Hlt _ Hp). lia.
      * intros p [Hp|Hq%list_elem_of_singleton]%elem_of_app; [|lia].
        specialize (Hlt p Hp). lia.
Qed.

Lemma reachable_called_once s : reachable s → called_once s.
Proof.
  apply reachable_invariant; [|apply step_called_once].
  intros c p. unfold called_once. rewrite new_this. simpl.
  destruct (new_effects c p) as [-> | ->]; simpl;
    (split; [apply NoDup_nil_2|by intros ? ?%elem_of_nil]).
Qed.

(** *** Requests *)

Lemma step_requests_ok ev s s' :
  Forall (request_ok (this s)) (requests (effects s)) →
  step ev s = Some s' →
  Forall (request_ok (this s')) (requests (effects s')).
Proof.
  apply (shape_invariant
           (λ s, Forall (request_ok (this s)) (requests (effects s)))).
  - intros a b (_ & _ & _ & _ & Hp & _ & d & He & _ & Hd) Ha.
    rewrite He, requests_app. apply Forall_app. split.
    + eapply Forall_impl; [exact Ha|]. intros o. by apply request_ok_ext.
    + eapply Forall_impl; [exact Hd|]. intros o. by apply request_ok_ext.
  - intros err s0 Ha.
    rewrite notifyReady_effects, requests_app, requests_listeners, app_nil_r.
    eapply Forall_impl; [exact Ha|]. intros o. apply request_ok_ext.
    by rewrite notifyReady_this.
  - intros s0 Ha. rewrite ready_effects.
    eapply Forall_impl; [exact Ha|]. intros o. apply request_ok_ext.
    rewrite ready_this. by destruct (_ready (this s0)).
Qed.

Lemma step_identity ev s s' :
  step ev s = Some s' →
  credential (this s') = credential (this s) ∧
  projectId (this s') = projectId (this s).
Proof.
  intros Hstep.
  apply (shape_invariant
           (λ x, credential (this x) = credential (this s) ∧
                 projectId (this x) = projectId (this s)) )
    with (ev := ev) (s := s); try done.
  - intros a b (_ & _ & _ & _ & Hp & Hc & _) [? ?]. split; congruence.
  - intros err s0 [? ?]. by rewrite notifyReady_this.
  - intros s0 [? ?]. rewrite ready_this. by destruct (_ready (this s0)).
Qed.

(** ** Further properties of the watch loop *)

Lemma watches_pos l i o :
  l !! i = Some (WatchThen, o) → (1 ≤ watches l)%nat.
Proof. intros H. rewrite (watches_delete_watch l i o H). lia. Qed.

Lemma watches_two l i j o o' :
  (i < j)%nat →
  l !! i = Some (WatchThen, o) → l !! j = Some (WatchThen, o') →
  (2 ≤ watches l)%nat.
Proof.
  revert i j. induction l as [|x l IH]; intros i j Hlt Hi Hj; [done|].
  destruct j as [|j]; [lia|]. simpl in Hj.
  destruct i as [|i]; simpl in Hi.
  - injection Hi as ->. pose proof (watches_pos l j o' Hj).
    unfold watches in *. simpl. lia.
  - assert (Hlt' : (i < j)%nat) by lia.
    specialize (IH i j Hlt' Hi Hj). unfold watches in *. simpl.
    destruct (is_watch x); simpl; lia.
Qed.

Lemma watches_none l o : watches l = 0%nat → (WatchThen, o) ∉ l.
Proof.
  intros Hw [i Hi]%list_elem_of_lookup.
  pose proof (watches_pos l i o Hi). lia.
Qed.

(** X1.  At most one long-poll request is in flight: two entries of the
    requests in flight that are long-polls are the same entry, and while
    one is in flight the watching guard is set. *)
Theorem at_most_one_long_poll (s : Sys) (i j : nat) (o o' : Options) :
  reachable s →
  inflight s !! i = Some (WatchThen, o) →
  inflight s !! j = Some (WatchThen, o') →
  i = j ∧ _watching (this s) = true.
Proof.
  intros Hreach Hi Hj.
  pose proof (reachable_single_flight s Hreach) as Hsf.
  unfold single_flight in Hsf. pose proof (watches_pos _ _ _ Hi) as Hpos.
  split.
  - destruct (Nat.lt_trichotomy i j) as [Hlt|[Heq|Hgt]]; [|done|].
    + pose proof (watches_two _ _ _ _ _ Hlt Hi Hj).
      destruct (_watching (this s)); lia.
    + pose proof (watches_two _ _ _ _ _ Hgt Hj Hi).
      destruct (_watching (this s)); lia.
  - destruct (_watching (this s)); [done|lia].
Qed.

Lemma at_most_one_long_poll_witness :
  let s := default Sample.engine (run Sample.cycle_v3 Sample.engine) in
  map fst (inflight s) = [WatchThen] ∧ _watching (this s) = true.
Proof.
  intros s. split; [vm_compute; reflexivity|].
  apply (at_most_one_long_poll s 0 0
           (watch_options (set_lastUpdated Sample.T1 (this Sample.engine)))
           (watch_options (set_lastUpdated Sample.T1 (this Sample.engine)))).
  - exists Sample.credential, Sample.project, Sample.cycle_v3.
    vm_compute; reflexivity.
  - vm_compute; reflexivity.
  - vm_compute; reflexivity.
Defined.

Lemma watch_options_ext e e' :
  projectId e = projectId e' → lastUpdated e = lastUpdated e' →
  watch_options e = watch_options e'.
Proof.
  intros Hp Hl. unfold watch_options, varurl, varname. by rewrite Hp, Hl.
Qed.

Lemma step_watch_current ev s s' :
  single_flight s → watch_current s → step ev s = Some s' → watch_current s'.
Proof.
  intros Hsf Hc Hstep.
  destruct (step_identity ev s s' Hstep) as [_ Hp].
  pose proof (step_lastUpdated_after ev s s' Hstep) as Hl.
  unfold watch_current, lastUpdated_after in *. step_cases Hstep.
  - intros o Ho. rewrite ready_inflight in Ho.
    rewrite (Hc o Ho). symmetry. by apply watch_options_ext.
  - intros o Ho. rewrite (Hc o Ho). symmetry. by apply watch_options_ext.
  - intros o Ho. rewrite data_inflight in Ho.
    rewrite (Hc o Ho). symmetry. by apply watch_options_ext.
  - clear Hl Hp. intros o' Ho.
    assert (Hnone : watches (inflight (receive i s)) = 0%nat).
    { pose proof (watches_delete_watch _ _ _ Hi). unfold single_flight in Hsf.
      simpl. destruct (_watching (this s)); lia. }
    destruct (watch_then_cases r (receive i s))
      as [(_ & mid & Heq & _ & st & Hin & Hst)|[_ Heq]];
      rewrite Heq in *.
    + rewrite watch_rearm_eq in Ho. simpl in Ho. rewrite Hin in Ho.
      apply elem_of_app in Ho as [Ho|Ho].
      * apply elem_of_app in Ho as [Ho|Ho]; by apply watches_none in Ho.
      * apply list_elem_of_singleton in Ho. injection Ho as ->.
        by rewrite watch_rearm_eq.
    + by apply watches_none in Ho.
  - intros o' Ho. rewrite fetchVar_then_inflight in Ho. simpl in Ho.
    apply list_elem_of_delete_inv in Ho.
    rewrite (Hc o' Ho). symmetry. by apply watch_options_ext.
Qed.

Lemma reachable_watch_current s : reachable s → watch_current s.
Proof.
  intros Hreach.
  apply (reachable_invariant (λ s, single_flight s ∧ watch_current s));
    [| |done].
  - intros c p. split; [apply reachable_single_flight, reachable_new|].
    unfold watch_current, new_RuntimeConfigEnv.
    destruct (Js.truthy c && Js.truthy p); simpl.
    + by intros o ->%list_elem_of_singleton%pair_inj%proj2.
    + by intros o ?%elem_of_nil.
  - intros ev s0 s' [Hsf Hc] Hstep. split.
    + by apply (step_single_flight ev s0).
    + by apply (step_watch_current ev s0).
Qed.

(** X2.  The long-poll request in flight always asks for what is newer than
    the [lastUpdated] the engine stores at that moment, at the watch URL of
    its project. *)
Theorem long_poll_is_current (s : Sys) (i : nat) (o : Options) :
  reachable s →
  inflight s !! i = Some (WatchThen, o) →
  o = watch_options (this s) ∧ body o = Some (lastUpdated (this s)).
Proof.
  intros Hreach Hi.
  assert (Ho : o = watch_options (this s)).
  { apply (reachable_watch_current s Hreach).
    apply list_elem_of_lookup. by exists i. }
  split; [done|]. by rewrite Ho.
Qed.

Lemma long_poll_is_current_witness :
  let s := default Sample.engine (run Sample.cycle_v3 Sample.engine) in
  ∃ o, inflight s !! 0%nat = Some (WatchThen, o) ∧ body o = Some Sample.T1.
Proof.
  intros s.
  exists (watch_options (set_lastUpdated Sample.T1 (this Sample.engine))).
  split; [vm_compute; reflexivity|].
  destruct (long_poll_is_current s 0
              (watch_options (set_lastUpdated Sample.T1 (this Sample.engine))))
    as [_ Hb].
  - exists Sample.credential, Sample.project, Sample.cycle_v3.
    vm_compute; reflexivity.
  - vm_compute; reflexivity.
  - rewrite Hb. vm_compute; reflexivity.
Defined.

(** ** Further properties of the readiness and observer hub *)

Lemma run_app evs1 evs2 s :
  run (evs1 ++ evs2) s
  = match run evs1 s with
    | Some s1 => run evs2 s1
    | None => None
    end.
Proof.
  revert s. induction evs1 as [|ev evs1 IH]; intros s; [done|].
  simpl. by destruct (step ev s).
Qed.

Lemma run_observes callbacks s :
  run (map CallObserve callbacks) s
  = Some (with_this (set__observers (_observers (this s) ++ callbacks)) s).
Proof.
  revert s. induction callbacks as [|cb callbacks IH]; intros s; simpl.
  - rewrite app_nil_r. by destruct s as [[] ? ? ? ?].
  - rewrite IH. unfold observe. simpl. by rewrite <- app_assoc.
Qed.

(** X3.  Registering observers calls nobody and replays nothing; the next
    notification calls every observer once, the earlier registered first,
    the new ones after them in the order they were registered, each with
    the same data. *)
Theorem observers_called_in_registration_order
    (s : Sys) (callbacks : list observer) (data : value) :
  ∃ s',
    run (map CallObserve callbacks) s = Some s' ∧
    effects s' = effects s ∧
    _observers (this s') = _observers (this s) ++ callbacks ∧
    observer_calls (effects (_notifyObservers data s'))
    = observer_calls (effects s)
        ++ map (λ cb, (cb, data)) (_observers (this s) ++ callbacks).
Proof.
  eexists. split; [apply run_observes|]. split; [done|]. split; [done|].
  rewrite notifyObservers_eq. simpl.
  by rewrite observer_calls_app, observer_calls_observers.
Qed.

(** X4.  Readiness never reverts: once [_ready] is set, it is set in every
    later state, and from then on no caller is queued. *)
Theorem readiness_is_permanent (s s' : Sys) (evs : list event) :
  reachable s →
  _ready (this s) = true →
  run evs s = Some s' →
  _ready (this s') = true ∧ _readyListeners (this s') = [].
Proof.
  intros Hreach Hr Hrun.
  assert (Hr' : _ready (this s') = true).
  { by apply (run_invariant (λ x, _ready (this x) = true)
                (λ ev a b Ha, step_ready_stays ev a b Ha) evs s). }
  split; [done|]. apply reachable_ready_queue; [|done].
  destruct Hreach as (c & p & evs0 & Hrun0).
  exists c, p, (evs0 ++ evs). by rewrite run_app, Hrun0.
Qed.

Lemma readiness_is_permanent_witness :
  let s := default Sample.engine (run Sample.cycle_v3 Sample.engine) in
  let later := [CallReady; Complete 0 (Sample.deleted Sample.T2); CallReady;
                Complete 0 (Failure Sample.error_500)] in
  let s' := default s (run later s) in
  _ready (this s') = true ∧ _readyListeners (this s') = [].
Proof.
  intros s later s'. apply (readiness_is_permanent s s' later).
  - exists Sample.credential, Sample.project, Sample.cycle_v3.
    vm_compute; reflexivity.
  - vm_compute; reflexivity.
  - vm_compute; reflexivity.
Defined.

(** X5.  No caller of [ready()] is lost: every promise handed out is either
    settled or waits in the listener queue, and once readiness is
    established every promise handed out is settled. *)
Theorem no_caller_left_waiting (s : Sys) (p : promise) :
  reachable s →
  (p < next_promise s)%nat →
  (settled s !! p = None →
   p ∈ _readyListeners (this s) ∧ _ready (this s) = false) ∧
  (_ready (this s) = true → is_Some (settled s !! p)).
Proof.
  intros Hreach Hp.
  pose proof (reachable_callers_accounted s Hreach p Hp) as Hacc.
  pose proof (reachable_ready_queue s Hreach) as Hq.
  assert (Hready : _ready (this s) = true → is_Some (settled s !! p)).
  { intros Hr. destruct Hacc as [?|Hin]; [done|].
    rewrite (Hq Hr) in Hin. by apply elem_of_nil in Hin. }
  split; [|done]. intros Hnone.
  destruct Hacc as [[o Ho]|Hin].
  { pose proof (eq_trans (eq_sym Ho) Hnone). discriminate. }
  split; [done|]. destruct (_ready (this s)); [|done].
  destruct (Hready eq_refl) as [o Ho].
  pose proof (eq_trans (eq_sym Ho) Hnone). discriminate.
Qed.

Lemma no_caller_left_waiting_witness :
  let s := default Sample.engine
             (run (CallReady :: CallReady :: Sample.first_fetch_fails)
                Sample.engine) in
  is_Some (settled s !! 1%nat).
Proof.
  intros s. apply (no_caller_left_waiting s 1%nat).
  - exists Sample.credential, Sample.project,
      (CallReady :: CallReady :: Sample.first_fetch_fails).
    vm_compute; reflexivity.
  - vm_compute. lia.
  - vm_compute; reflexivity.
Defined.

(** X6.  No listener is called twice: over the whole life of an instance
    the promises whose [resolve] or [reject] was called are pairwise
    distinct, each was handed out by [ready()], and none of them is still
    queued. *)
Theorem each_listener_called_once (s : Sys) :
  reachable s →
  NoDup (settlements (effects s)) ∧
  ∀ p, p ∈ settlements (effects s) →
       (p < next_promise s)%nat ∧ p ∉ _readyListeners (this s).
Proof.
  intros Hreach. destruct (reachable_called_once s Hreach) as [Hnd Hlt].
  apply NoDup_app in Hnd as (Hnd & Hdis & _). split; [done|].
  intros p Hp. split; [|by apply Hdis].
  apply Hlt, elem_of_app. by left.
Qed.

Lemma each_listener_called_once_witness :
  let s := default Sample.engine
             (run (CallReady :: CallReady :: Sample.first_fetch_fails
                   ++ [CallReady; Complete 0 (Sample.deleted Sample.T2)])
                Sample.engine) in
  settlements (effects s) = [0%nat; 1%nat] ∧ NoDup (settlements (effects s)).
Proof.
  intros s. split; [vm_compute; reflexivity|].
  apply (each_listener_called_once s).
  exists Sample.credential, Sample.project,
    (CallReady :: CallReady :: Sample.first_fetch_fails
     ++ [CallReady; Complete 0 (Sample.deleted Sample.T2)]).
  vm_compute; reflexivity.
Defined.

Lemma ready_fst s : fst (ready s) = next_promise s.
Proof.
  unfold ready, new_promise. simpl. destruct (_ready (this s)); [|done].
  by destruct (Js.truthy (_readyError (this s))).
Qed.

(** X7.  Once readiness is established [ready()] answers on
    the spot: the promise it returns is new and already resolved, nobody is
    queued, nothing is sent, and no other promise or field changes. *)
Theorem ready_when_ready (s : Sys) :
  reachable s →
  _ready (this s) = true →
  fst (ready s) = next_promise s ∧
  settled (snd (ready s)) !! fst (ready s) = Some Resolved ∧
  (∀ q, q ≠ fst (ready s) →
        settled (snd (ready s)) !! q = settled s !! q) ∧
  this (snd (ready s)) = this s ∧
  effects (snd (ready s)) = effects s ∧
  inflight (snd (ready s)) = inflight s.
Proof.
  intros Hreach Hr. split; [apply ready_fst|].
  split; [by apply late_ready_resolves|].
  rewrite ready_this, ready_effects, ready_inflight, Hr.
  repeat split. intros q Hq. rewrite ready_fst in Hq.
  unfold ready, new_promise. simpl.
  rewrite Hr, (reachable_readyError s Hreach). simpl.
  rewrite settle_other; [done|congruence].
Qed.

Lemma ready_when_ready_witness :
  let s := default Sample.engine (run Sample.first_fetch_fails Sample.engine) in
  settled (snd (ready s)) !! 0%nat = Some Resolved.
Proof.
  intros s.
  destruct (ready_when_ready s) as (_ & H & _).
  - exists Sample.credential, Sample.project, Sample.first_fetch_fails.
    vm_compute; reflexivity.
  - vm_compute; reflexivity.
  - exact H.
Defined.

(** ** The requests an instance sends *)

(** X8.  An instance keeps the credential and the project it was
    constructed with, and every request it ever sends is one of two: the
    POST of the long-poll at the watch URL of its project, with a
    [newerThan] body and the 65 s timeout, or the GET of a variable of its
    project whose name is not v0. *)
Theorem only_watch_and_variable_requests
    (cred project : value) (evs : list event) (s : Sys) (o : Options) :
  run evs (new_RuntimeConfigEnv cred project) = Some s →
  credential (this s) = cred ∧
  projectId (this s) = project ∧
  (o ∈ requests (effects s) →
   (∃ t, o = {| method := "POST";
                url := varurl (this s) (VStr "meta") +:+ ":watch";
                body := Some t; json := true; timeout := Some 65000 |}) ∨
   (∃ name, Js.is_str name "v0" = false ∧
            o = {| method := "GET"; url := varurl (this s) name;
                   body := None; json := true; timeout := None |})).
Proof.
  intros Hrun.
  assert (H : (credential (this s) = cred ∧
               projectId (this s) = project) ∧
              Forall (request_ok (this s)) (requests (effects s))).
  { apply (run_invariant
             (λ x, (credential (this x) = cred ∧
                    projectId (this x) = project) ∧
                   Forall (request_ok (this x)) (requests (effects x))))
      with (evs := evs) (s := new_RuntimeConfigEnv cred project);
      [| |done].
    - intros ev a b [[Hc Hp] Hf] Hstep.
      destruct (step_identity ev a b Hstep) as [Hc' Hp'].
      split; [split; congruence|]. by apply (step_requests_ok ev a).
    - split; [by rewrite new_this|].
      destruct (new_effects cred project) as [-> | ->]; simpl;
        [by apply Forall_nil|].
      apply Forall_singleton. eapply request_ok_ext; [|apply request_ok_watch].
      by rewrite new_this. }
  destruct H as [[Hc Hp] Hf]. split; [done|]. split; [done|].
  intros Ho. rewrite Forall_forall in Hf.
  destruct (Hf o Ho) as [[t ->]|(name & Hn & ->)].
  - left. by exists t.
  - right. by exists name.
Qed.

Lemma only_watch_and_variable_requests_witness :
  let s := default Sample.engine (run Sample.cycle_v3 Sample.engine) in
  credential (this s) = Sample.credential ∧
  projectId (this s) = Sample.project.
Proof.
  intros s.
  destruct (only_watch_and_variable_requests Sample.credential Sample.project
              Sample.cycle_v3 s (watch_options (this s)))
    as (Hc & Hp & _); [vm_compute; reflexivity|].
  by split.
Defined.

(** ** Further properties of a watch cycle *)

(** X9.  A watch cycle that brings no news (a 502, or a response whose
    state is neither UPDATED nor DELETED) changes no field but the guard,
    which it leaves set, settles no promise, calls no observer, and sends
    exactly one request: the long-poll again, with the same [newerThan]. *)
Theorem benign_cycle_changes_nothing
    (s : Sys) (i : nat) (o : Options) (r : reply) :
  inflight s !! i = Some (WatchThen, o) →
  benign r = true →
  ∃ s',
    step (Complete i r) s = Some s' ∧
    this s' = set__watching true (this s) ∧
    settled s' = settled s ∧
    effects s' = effects s ++ [Http (watch_options (this s))] ∧
    inflight s'
    = delete i (inflight s) ++ [(WatchThen, watch_options (this s))].
Proof.
  intros Hi Hb. eexists. split; [by apply (step_watch_reply s i o)|].
  assert (Heq : watch_then r (receive i s) = watch_rearm (receive i s)).
  { unfold watch_then. destruct r as [resp|err]; unfold benign in Hb.
    - apply andb_true_iff in Hb as [Hu%negb_true_iff Hd%negb_true_iff].
      unfold watch_fulfilled. by rewrite Hu, Hd.
    - unfold watch_rejected. by rewrite Hb. }
  rewrite Heq, watch_rearm_eq. by repeat split.
Qed.

Lemma benign_cycle_changes_nothing_witness :
  ∃ s',
    step (Complete 0 (Failure Sample.error_502)) Sample.engine = Some s' ∧
    this s' = this Sample.engine ∧
    requests (effects s')
    = [watch_options (this Sample.engine); watch_options (this Sample.engine)].
Proof.
  destruct (benign_cycle_changes_nothing Sample.engine 0
              (watch_options (this Sample.engine)) (Failure Sample.error_502))
    as (s' & Hstep & Ht & _ & He & _); [reflexivity|reflexivity|].
  exists s'. split; [exact Hstep|]. split; [by rewrite Ht|]. by rewrite He.
Defined.

(** X10.  An UPDATED response whose metadata text does not parse, or parses
    to null, ends the loop: the reaction throws before it changes
    anything, the re-arming reaction is skipped, the guard stays set and no
    later event starts a long-poll request again. *)
Theorem malformed_metadata_stops_loop
    (s : Sys) (i : nat) (o : Options) (r : response) :
  reachable s →
  inflight s !! i = Some (WatchThen, o) →
  state r = "UPDATED" →
  (∀ meta, JSON_parse (text r) = Some meta → Js.nullish meta = true) →
  step (Complete i (Response r)) s = Some (receive i s) ∧
  stopped (receive i s) ∧
  ∀ evs s', run evs (receive i s) = Some s' → stopped s'.
Proof.
  intros Hreach Hi Hstate Hmeta.
  assert (Hr : rearming (Response r) = false).
  { unfold rearming. rewrite Hstate. simpl.
    destruct (JSON_parse (text r)) as [meta|]; [|done].
    by rewrite (Hmeta meta eq_refl). }
  assert (Hstop : stopped (receive i s)).
  { pose proof (reachable_single_flight s Hreach) as Hsf.
    pose proof (watches_delete_watch _ _ _ Hi) as Hw.
    unfold single_flight in Hsf. unfold stopped. simpl.
    destruct (_watching (this s)); [split; [done|lia]|lia]. }
  split; [|split; [done|]].
  - rewrite (step_watch_reply s i o) by done.
    by destruct (watch_then_cases (Response r) (receive i s))
      as [[? _]|[_ ->]]; [congruence|].
  - intros evs s'. by apply (run_invariant stopped step_stopped).
Qed.

Lemma malformed_metadata_stops_loop_witness :
  let r := {| state := "UPDATED"; text := Malformed;
              updateTime := Sample.T1 |} in
  step (Complete 0 (Response r)) Sample.engine = Some (receive 0 Sample.engine)
  ∧ stopped (receive 0 Sample.engine).
Proof.
  intros r.
  destruct (malformed_metadata_stops_loop Sample.engine 0
              (watch_options (this Sample.engine)) r) as (H1 & H2 & _).
  - exists Sample.credential, Sample.project, []. reflexivity.
  - reflexivity.
  - reflexivity.
  - intros meta Hm. discriminate Hm.
  - by split.
Defined.

Lemma requests_resolves queue : requests (map ListenerResolve queue) = [].
Proof. by induction queue. Qed.

Lemma observer_calls_resolves queue :
  observer_calls (map ListenerResolve queue) = [].
Proof. by induction queue. Qed.

Lemma meta_applied_plain meta e :
  Js.truthy (Js.get_prop meta "latest") = false →
  meta_applied meta e
  = set__merged VNull
      (set__reserved (Js.or (Js.get_prop meta "reserved") (VObj ∅))
         (set_version (Js.or (Js.get_prop meta "version") (VStr "v0")) e)).
Proof. intros H. unfold meta_applied. by rewrite H. Qed.

Lemma meta_applied_latest meta e :
  Js.truthy (Js.get_prop meta "latest") = true →
  meta_applied meta e
  = set__customFromMeta (Js.get_prop meta "latest")
      (set__merged VNull
         (set__reserved (Js.or (Js.get_prop meta "reserved") (VObj ∅))
            (set_version (Js.or (Js.get_prop meta "version") (VStr "v0")) e))).
Proof. intros H. unfold meta_applied. by rewrite H. Qed.

Lemma step_updated s i o r meta :
  inflight s !! i = Some (WatchThen, o) →
  state r = "UPDATED" → JSON_parse (text r) = Some meta →
  Js.nullish meta = false →
  step (Complete i (Response r)) s
  = Some (watch_rearm
            (fetch (mkSys (set_lastUpdated (updateTime r)
                             (meta_applied meta (this s)))
                      (settled s) (next_promise s) (delete i (inflight s))
                      (effects s)))).
Proof.
  intros Hi Hs Hp Hn. rewrite (step_watch_reply s i o) by done.
  unfold watch_then. by rewrite (watch_fulfilled_updated r meta).
Qed.

(** X11.  Metadata that names no version, or names v0, and inlines nothing
    needs no variable request: the version is v0, [custom] becomes the
    empty map and readiness is established within the same cycle, the
    observers are called with the empty map, and the only request sent is
    the next long-poll. *)
Theorem unversioned_metadata_needs_no_fetch
    (s : Sys) (i : nat) (o : Options) (r : response) (meta : value) :
  inflight s !! i = Some (WatchThen, o) →
  state r = "UPDATED" →
  JSON_parse (text r) = Some meta →
  Js.nullish meta = false →
  Js.truthy (Js.get_prop meta "latest") = false →
  Js.truthy (_customFromMeta (this s)) = false →
  Js.truthy (Js.get_prop meta "version") = false
  ∨ Js.get_prop meta "version" = VStr "v0" →
  ∃ s',
    step (Complete i (Response r)) s = Some s' ∧
    version (this s') = VStr "v0" ∧
    _custom (this s') = VObj ∅ ∧
    _ready (this s') = true ∧
    requests (effects s')
    = requests (effects s) ++ [watch_options (this s')] ∧
    observer_calls (effects s')
    = observer_calls (effects s)
        ++ map (λ cb, (cb, VObj ∅)) (_observers (this s)) ∧
    inflight s'
    = delete i (inflight s) ++ [(WatchThen, watch_options (this s'))].
Proof.
  intros Hi Hs Hp Hn Hl Hc Hv.
  assert (Hv0 : Js.or (Js.get_prop meta "version") (VStr "v0") = VStr "v0").
  { unfold Js.or. destruct Hv as [-> | ->]; done. }
  pose (e1 := set_lastUpdated (updateTime r)
                (set__merged VNull
                   (set__reserved
                      (Js.or (Js.get_prop meta "reserved") (VObj ∅))
                      (set_version (VStr "v0") (this s))))).
  pose (s1 := mkSys e1 (settled s) (next_promise s) (delete i (inflight s))
                (effects s)).
  exists (watch_rearm (fetch_fulfilled (VObj ∅) s1)). split.
  { rewrite (step_updated s i o r meta) by done.
    rewrite meta_applied_plain, Hv0 by done. fold e1. fold s1.
    unfold fetch, fetchVar. subst s1 e1. simpl. by rewrite Hc. }
  rewrite watch_rearm_eq. cbn [this effects inflight settled].
  rewrite fetch_fulfilled_this, fetch_fulfilled_effects,
    fetch_fulfilled_inflight.
  subst s1 e1. simpl. repeat split.
  - rewrite !requests_app, requests_resolves, requests_observers.
    rewrite !app_nil_r. reflexivity.
  - rewrite !observer_calls_app, observer_calls_resolves,
      observer_calls_observers.
    rewrite app_nil_r. reflexivity.
Qed.

Lemma unversioned_metadata_needs_no_fetch_witness :
  ∃ s',
    step (Complete 0 (Sample.updated (VObj ∅) Sample.T1)) Sample.engine
    = Some s' ∧
    version (this s') = VStr "v0" ∧ _ready (this s') = true.
Proof.
  destruct (unversioned_metadata_needs_no_fetch Sample.engine 0
              (watch_options (this Sample.engine))
              {| state := "UPDATED"; text := Json (VObj ∅);
                 updateTime := Sample.T1 |} (VObj ∅))
    as (s' & Hstep & Hv & _ & Hr & _);
    try reflexivity; [left; reflexivity|].
  exists s'. by repeat split.
Defined.

(** X12.  Metadata that inlines the custom configuration is used as it is:
    within the same cycle [custom] becomes the inlined document, readiness
    is established, the observers are called with the document, and the
    only request sent is the next long-poll. *)
Theorem inlined_configuration_is_used
    (s : Sys) (i : nat) (o : Options) (r : response) (meta : value) :
  inflight s !! i = Some (WatchThen, o) →
  state r = "UPDATED" →
  JSON_parse (text r) = Some meta →
  Js.nullish meta = false →
  Js.truthy (Js.get_prop meta "latest") = true →
  ∃ s',
    step (Complete i (Response r)) s = Some s' ∧
    _custom (this s') = Js.get_prop meta "latest" ∧
    _ready (this s') = true ∧
    _merged (this s') = VNull ∧
    lastUpdated (this s') = updateTime r ∧
    requests (effects s')
    = requests (effects s) ++ [watch_options (this s')] ∧
    observer_calls (effects s')
    = observer_calls (effects s)
        ++ map (λ cb, (cb, Js.get_prop meta "latest")) (_observers (this s)) ∧
    inflight s'
    = delete i (inflight s) ++ [(WatchThen, watch_options (this s'))].
Proof.
  intros Hi Hs Hp Hn Hl.
  pose (e1 := set_lastUpdated (updateTime r) (meta_applied meta (this s))).
  pose (s1 := mkSys e1 (settled s) (next_promise s) (delete i (inflight s))
                (effects s)).
  assert (Hc : _customFromMeta e1 = Js.get_prop meta "latest").
  { subst e1. by rewrite meta_applied_latest. }
  exists (watch_rearm (fetch_fulfilled (Js.get_prop meta "latest") s1)).
  split.
  { rewrite (step_updated s i o r meta) by done. fold e1. fold s1.
    rewrite fetch_takes_customFromMeta;
      change (this s1) with e1; by rewrite Hc. }
  rewrite watch_rearm_eq. cbn [this effects inflight settled].
  rewrite fetch_fulfilled_this, fetch_fulfilled_effects,
    fetch_fulfilled_inflight.
  subst s1 e1. simpl. rewrite meta_applied_listeners.
  unfold Js.or. rewrite Hl. repeat split.
  - rewrite !requests_app, requests_resolves, requests_observers.
    rewrite !app_nil_r. reflexivity.
  - rewrite !observer_calls_app, observer_calls_resolves,
      observer_calls_observers.
    rewrite app_nil_r. unfold meta_applied. rewrite Hl. reflexivity.
Qed.

Lemma inlined_configuration_is_used_witness :
  ∃ s',
    step (Complete 0 (Sample.updated Sample.meta_v1_latest Sample.T1))
      (observe 7%nat Sample.engine) = Some s' ∧
    _custom (this s') = Sample.latest1 ∧
    observer_calls (effects s') = [(7%nat, Sample.latest1)].
Proof.
  destruct (inlined_configuration_is_used (observe 7%nat Sample.engine) 0
              (watch_options (this Sample.engine))
              {| state := "UPDATED"; text := Json Sample.meta_v1_latest;
                 updateTime := Sample.T1 |} Sample.meta_v1_latest)
    as (s' & Hstep & Hc & _ & _ & _ & _ & Ho & _);
    try (vm_compute; reflexivity).
  exists s'. split; [exact Hstep|]. split.
  - rewrite Hc. vm_compute; reflexivity.
  - rewrite Ho. vm_compute; reflexivity.
Defined.

(** X13.  When nothing was ever inlined and the metadata announces a version
    other than v0, the cycle sends the GET for the variable of that version
    of the project and then the next long-poll; until the variable arrives
    readiness, [custom], the listener queue and the observers are left
    alone. *)
Theorem announced_version_is_fetched
    (s : Sys) (i : nat) (o : Options) (r : response) (meta : value) :
  inflight s !! i = Some (WatchThen, o) →
  state r = "UPDATED" →
  JSON_parse (text r) = Some meta →
  Js.nullish meta = false →
  Js.truthy (Js.get_prop meta "latest") = false →
  Js.truthy (_customFromMeta (this s)) = false →
  Js.is_str (Js.or (Js.get_prop meta "version") (VStr "v0")) "v0" = false →
  ∃ s',
    step (Complete i (Response r)) s = Some s' ∧
    version (this s') = Js.or (Js.get_prop meta "version") (VStr "v0") ∧
    requests (effects s')
    = requests (effects s)
        ++ [variable_options (this s') (version (this s'));
            watch_options (this s')] ∧
    inflight s'
    = delete i (inflight s)
        ++ [(FetchVarThen, variable_options (this s') (version (this s')));
            (WatchThen, watch_options (this s'))] ∧
    _ready (this s') = _ready (this s) ∧
    _custom (this s') = _custom (this s) ∧
    _readyListeners (this s') = _readyListeners (this s) ∧
    settled s' = settled s ∧
    observer_calls (effects s') = observer_calls (effects s).
Proof.
  intros Hi Hs Hp Hn Hl Hc Hv.
  pose (e1 := set_lastUpdated (updateTime r)
                (set__merged VNull
                   (set__reserved
                      (Js.or (Js.get_prop meta "reserved") (VObj ∅))
                      (set_version
                         (Js.or (Js.get_prop meta "version") (VStr "v0"))
                         (this s))))).
  pose (s1 := mkSys e1 (settled s) (next_promise s) (delete i (inflight s))
                (effects s)).
  exists (watch_rearm
            (send FetchVarThen (variable_options e1 (version e1)) s1)).
  split.
  { rewrite (step_updated s i o r meta) by done.
    rewrite meta_applied_plain by done. fold e1. fold s1.
    by rewrite fetch_request_eq. }
  rewrite watch_rearm_eq. subst s1 e1. simpl. rewrite <- !app_assoc.
  repeat split.
  - rewrite !requests_app. reflexivity.
  - rewrite !observer_calls_app. simpl. rewrite app_nil_r. reflexivity.
Qed.

Lemma announced_version_is_fetched_witness :
  ∃ s',
    step (Complete 0 (Sample.updated Sample.meta_v3 Sample.T1)) Sample.engine
    = Some s' ∧
    version (this s') = VStr "v3" ∧
    _ready (this s') = false ∧
    map fst (inflight s') = [FetchVarThen; WatchThen].
Proof.
  destruct (announced_version_is_fetched Sample.engine 0
              (watch_options (this Sample.engine))
              {| state := "UPDATED"; text := Json Sample.meta_v3;
                 updateTime := Sample.T1 |} Sample.meta_v3)
    as (s' & Hstep & Hv & _ & Hi & Hr & _); try (vm_compute; reflexivity).
  exists s'. split; [exact Hstep|]. split; [|split].
  - rewrite Hv. vm_compute; reflexivity.
  - rewrite Hr. reflexivity.
  - rewrite Hi. reflexivity.
Defined.

(** X14.  Variables of different names are fetched from different URLs. *)
Theorem variable_urls_are_distinct (e : Env) (name1 name2 : string) :
  name1 ≠ name2 → varurl e (VStr name1) ≠ varurl e (VStr name2).
Proof.
  intros Hne Heq. apply Hne. unfold varurl, varname in Heq. simpl in Heq.
  by repeat apply String.app_inj in Heq.
Qed.

Lemma variable_urls_are_distinct_witness :
  varurl (this Sample.engine) (VStr "v1")
  ≠ varurl (this Sample.engine) (VStr "v2").
Proof. apply variable_urls_are_distinct. by vm_compute. Defined.

(** ** Further properties of the variable fetcher *)

(** X15.  What the rejection reason of a failed variable request does.  A
    null or undefined reason makes the reaction throw before it changes
    anything: the engine stays as it is, readiness is not established and
    the callers stay queued.  Any other reason establishes readiness with
    an empty [custom]; the queued callers are rejected with the reason when
    it is truthy and resolved when it is falsy. *)
Theorem rejection_reason_decides
    (s : Sys) (i : nat) (o : Options) (err : value) :
  inflight s !! i = Some (FetchVarThen, o) →
  (Js.nullish err = true →
   step (Complete i (Failure err)) s = Some (receive i s)) ∧
  (Js.nullish err = false →
   ∃ s',
     step (Complete i (Failure err)) s = Some s' ∧
     _ready (this s') = true ∧
     _custom (this s') = VObj ∅ ∧
     _readyListeners (this s') = [] ∧
     effects s'
     = effects s
         ++ map (λ p, if Js.truthy err then ListenerReject p err
                      else ListenerResolve p) (_readyListeners (this s))).
Proof.
  intros Hi. rewrite (step_variable_reply s i o) by done.
  unfold fetchVar_then. split.
  - intros Hn. unfold fetch_rejected. by rewrite Hn.
  - intros Hn. eexists. split; [reflexivity|].
    rewrite fetch_rejected_normal by done. cbn [snd].
    rewrite notifyReady_this, notifyReady_effects. by repeat split.
Qed.

Lemma rejection_reason_decides_witness :
  let s := default Sample.engine
             (run [CallReady;
                   Complete 0 (Sample.updated Sample.meta_v2 Sample.T1)]
                Sample.engine) in
  step (Complete 0 (Failure VUndefined)) s = Some (receive 0 s) ∧
  ∃ s', step (Complete 0 (Failure (VNum 0))) s = Some s' ∧
        effects s' = effects s ++ [ListenerResolve 0%nat].
Proof.
  intros s.
  destruct (rejection_reason_decides s 0
              (variable_options (this s) (VStr "v2")) VUndefined) as [H1 _];
    [vm_compute; reflexivity|].
  destruct (rejection_reason_decides s 0
              (variable_options (this s) (VStr "v2")) (VNum 0)) as [_ H2];
    [vm_compute; reflexivity|].
  split; [by apply H1|].
  destruct (H2 eq_refl) as (s' & Hstep & _ & _ & _ & He).
  exists s'. split; [exact Hstep|]. rewrite He. vm_compute; reflexivity.
Defined.

(** ** Further properties of the snapshot *)

Lemma merge_object custom reserved credential :
  Js.truthy (merge custom reserved credential) = true.
Proof.
  unfold merge, lodash.assign. destruct (Js.truthy credential); [|done].
  apply set_credential_truthy.
Qed.

(** X16.  Reading [data] twice in a row gives the same result both times
    and the second read changes nothing: before readiness both reads throw,
    after it the second read returns the snapshot the first one cached. *)
Theorem data_read_twice (s : Sys) : data (snd (data s)) = data s.
Proof.
  unfold data at 2 3. destruct (_ready (this s)) eqn:Hr; cbn [negb snd].
  - destruct (Js.truthy (_merged (this s))) eqn:Hm; cbn [snd].
    + unfold data. by rewrite Hr, Hm.
    + unfold data. cbn [this with_this _ready _merged set__merged negb].
      by rewrite Hr, merge_object.
  - unfold data. by rewrite Hr.
Qed.

(** X17.  After either outcome of a fetch [data] succeeds.  After a fetch
    that yielded a document it returns the merge of that document (of the
    empty map, if the document is falsy) with the stored reserved
    configuration and the credential; after a failed fetch it returns the
    merge of the empty map with them. *)
Theorem data_after_reconciliation (s : Sys) (document err : value) :
  Js.nullish err = false →
  fst (data (fetch_fulfilled document s))
  = Normal (merge (Js.or document (VObj ∅)) (_reserved (this s))
              (credential (this s))) ∧
  fst (data (snd (fetch_rejected err s)))
  = Normal (merge (VObj ∅) (_reserved (this s)) (credential (this s))).
Proof.
  intros Hn. split.
  - unfold data. by rewrite fetch_fulfilled_this.
  - unfold data. rewrite fetch_rejected_this, Hn. reflexivity.
Qed.

Lemma data_after_reconciliation_witness :
  fst (data (snd (fetch_rejected Sample.error_500 Sample.engine)))
  = Normal (merge (VObj ∅) VUndefined Sample.credential).
Proof.
  destruct (data_after_reconciliation Sample.engine VNull Sample.error_500)
    as [_ H]; [reflexivity|].
  exact H.
Defined.

(** X18.  The keys of the snapshot.  Apart from [firebase] and the literal
    key [firebase.credential] when a credential is configured, a key of the
    snapshot holds the reserved value if [reserved] has the key and the
    custom value otherwise; a key neither has is absent.  When a credential
    is configured and [reserved] or [custom] has a key that is literally
    [firebase.credential], that key holds the credential in the snapshot
    and the key [firebase] is as the other keys are: a property named by
    the whole path is written in place of the nested one. *)
Theorem merge_lookup (custom reserved credential : value) (k : string) :
  ((k ≠ "firebase" ∧ k ≠ "firebase.credential") ∨
   Js.truthy credential = false →
   Js.own_props (merge custom reserved credential) !! k
   = match Js.own_props reserved !! k with
     | Some v => Some v
     | None => Js.own_props custom !! k
     end) ∧
  (Js.truthy credential = true →
   is_Some (match Js.own_props reserved !! "firebase.credential" with
            | Some v => Some v
            | None => Js.own_props custom !! "firebase.credential"
            end) →
   Js.own_props (merge custom reserved credential) !! "firebase.credential"
   = Some credential ∧
   Js.own_props (merge custom reserved credential) !! "firebase"
   = match Js.own_props reserved !! "firebase" with
     | Some v => Some v
     | None => Js.own_props custom !! "firebase"
     end).
Proof. split; [apply merge_others|apply merge_literal]. Qed.

Lemma merge_lookup_witness :
  Js.own_props
    (merge Sample.custom_v3 (Js.get_prop Sample.meta_v3 "reserved")
       Sample.credential) !! "y"
  = Some (VNum 2) ∧
  Js.own_props
    (merge (VObj {[ "firebase.credential" := VNum 1 ]}) (VObj ∅)
       Sample.credential) !! "firebase"
  = None.
Proof.
  split.
  - rewrite (proj1 (merge_lookup Sample.custom_v3
                      (Js.get_prop Sample.meta_v3 "reserved")
                      Sample.credential "y"));
      [vm_compute; reflexivity|]. left. by vm_compute.
  - destruct (proj2 (merge_lookup (VObj {[ "firebase.credential" := VNum 1 ]})
                       (VObj ∅) Sample.credential "y")) as [_ H];
      [reflexivity|vm_compute; eauto|].
    rewrite H. vm_compute; reflexivity.
Defined.
